(** * Loom: tree layout, node editor and settings store

    A shallow embedding of three pieces of the Loom front end:
    - [src/components/TreeView.tsx]: the tree layout ([calculateLayout] with
      its two local closures [calculateSubtreeWidth] and [layout]);
    - the editable node component ([truncateText], [handleSave]);
    - the settings store ([updateModelConfig]).

    Conventions.  JavaScript numbers are modelled by [Z]: every number the
    layout computes is an integer (sums of 1, multiples of 125 and 120), so
    the floating point operations of the source are exact on them.  A
    [Record<string, T>] and a plain object are a [gmap string T], a
    [Set<string>] is a [gset string], an array is a [list]; keys are taken
    not to name members of [Object.prototype].  Recursion that the source
    leaves to the call stack is bounded by an explicit fuel; running out of
    fuel is [None], and the fuel the entry points pass is proved
    sufficient.

    For the lookups of the layout the key convention is lifted by
    [TreeViewJs], which runs the same closures on a heap that holds the node
    mapping and looks ids up through the prototype chain:
    [calculateLayout_js_refines] shows that the two embeddings return the
    same position map on every mapping in which no reference reachable from
    the root id is found on the prototype, and that the invocation throws on
    every other one. *)

From Stdlib Require Import ZArith Ascii String List Lia.
From stdpp Require Import base option list relations gmap strings fin_maps fin_sets.

#[local] Set Warnings "-clear-no-such-hyp,-register-all".
Local Open Scope Z_scope.

(** * Part I: the embedding of the sources *)

(** ** Generic helpers *)

(** [Array.prototype.reduce] / [forEach] with a callback that may run out of
    fuel: a left fold in the option monad. *)
Fixpoint reduce {A B : Type} (f : B → A → option B) (l : list A) (acc : B)
  : option B :=
  match l with
  | [] => Some acc
  | a :: l' =>
      match f acc a with
      | Some acc' => reduce f l' acc'
      | None => None
      end
  end.

(** ** The tree data model *)

(** Modelled from the spec: the [TreeNode] type is declared in [@/types],
    which is not part of the sources at hand; the fields are those of the
    data model section (timestamps and generation metadata play no role in
    what follows and are left out). *)
Record TreeNode := mkTreeNode {
  id : string;
  text : string;
  parentId : option string;
  children : list string;
  bookmark : bool
}.

Module TreeView.

Definition nodeWidth : Z := 200.
Definition nodeHeight : Z := 80.
Definition horizontalSpacing : Z := 250.
Definition verticalSpacing : Z := 120.

(** The mutable objects one invocation of [calculateLayout] allocates:
    [positions], the closure variable [visited] that [calculateSubtreeWidth]
    reads and writes, and the [Set] handed to [layout] as its fourth
    argument (one object shared by the whole recursion). *)
Record LayoutState := mkLayoutState {
  positions : gmap string (Z * Z);
  visited : gset string;
  layoutVisited : gset string
}.

Section calculateLayout.

(** [nodes] is the second parameter of [calculateLayout]; both closures
    capture it and only ever read [nodes[nodeId]] and [node.children].  The
    lookup is the lookup of the map, under the key convention: an absent id
    is [undefined].  [TreeViewJs] below has the lookup through the prototype
    chain. *)
Variable nodes : gmap string TreeNode.

Fixpoint calculateSubtreeWidth_fuel (fuel : nat) (nodeId : string)
    (visited : gset string) : option (Z * gset string) :=
  match fuel with
  | O => None
  | S fuel' =>
      match nodes !! nodeId with
      | None => Some (1, visited)
      | Some node =>
          if decide (nodeId ∈ visited) then Some (1, visited)
          else
            let visited := {[nodeId]} ∪ visited in
            match children node with
            | [] => Some (1, visited)
            | _ =>
                reduce
                  (λ '(sum, visited) childId,
                     match calculateSubtreeWidth_fuel fuel' childId visited with
                     | Some (w, visited) => Some (sum + w, visited)
                     | None => None
                     end)
                  (children node) (0, visited)
            end
      end
  end.

Definition calculateSubtreeWidth (nodeId : string) (visited : gset string)
  : option (Z * gset string) :=
  calculateSubtreeWidth_fuel (S (size nodes)) nodeId visited.

(** The body of the [forEach] callback of [layout], given the recursive
    call [rec] on the children. *)
Definition layout_child (rec : string → Z → Z → LayoutState → option (Z * LayoutState))
    (y : Z) (acc : Z * LayoutState) (childId : string) : option (Z * LayoutState) :=
  let '(currentX, st) := acc in
  match calculateSubtreeWidth childId (visited st) with
  | None => None
  | Some (childWidth, visited') =>
      let st := mkLayoutState (positions st) visited' (layoutVisited st) in
      let childX :=
        currentX + (childWidth * horizontalSpacing) / 2 - horizontalSpacing / 2 in
      rec childId childX (y + verticalSpacing) st
  end.

Fixpoint layout (fuel : nat) (nodeId : string) (x y : Z) (st : LayoutState)
  : option (Z * LayoutState) :=
  match fuel with
  | O => None
  | S fuel' =>
      match nodes !! nodeId with
      | None => Some (x, st)
      | Some node =>
          if decide (nodeId ∈ layoutVisited st) then Some (x, st)
          else
            let st :=
              mkLayoutState (<[nodeId := (x, y)]> (positions st)) (visited st)
                            ({[nodeId]} ∪ layoutVisited st) in
            match reduce (layout_child (layout fuel') y) (children node) (x, st) with
            | None => None
            | Some (currentX, st) => Some (Z.max currentX (x + horizontalSpacing), st)
            end
      end
  end.

(** [positions = {}], [visited = new Set()], [visited.clear()],
    [layout(rootId, 0, 0, new Set())]. *)
Definition initialState : LayoutState := mkLayoutState ∅ ∅ ∅.

Definition calculateLayout_fuel (fuel : nat) (rootId : string)
  : option (gmap string (Z * Z)) :=
  match layout fuel rootId 0 0 initialState with
  | None => None
  | Some (_, st) => Some (positions st)
  end.

End calculateLayout.

Definition calculateLayout (rootId : string) (nodes : gmap string TreeNode)
  : option (gmap string (Z * Z)) :=
  calculateLayout_fuel nodes (S (size nodes)) rootId.

End TreeView.

(** ** The editable node component *)

(** A [string] stands for a JavaScript string whose UTF-16 code units all lie
    below 256, one [ascii] per code unit, so [String.length] is [.length]. *)
Module EditableNode.

(** [String.prototype.substring(start, end)]: both indices are clamped to
    [0 .. length] and swapped when out of order. *)
Definition substring (start end_ : Z) (s : string) : string :=
  let len := Z.of_nat (String.length s) in
  let clamp i := Z.min (Z.max i 0) len in
  let from := Z.min (clamp start) (clamp end_) in
  let upto := Z.max (clamp start) (clamp end_) in
  String.substring (Z.to_nat from) (Z.to_nat (upto - from)) s.

(** White space and line terminators among the code units below 256: tab,
    line feed, vertical tab, form feed, carriage return, space and the
    no-break space. *)
Definition isWhiteSpace (c : ascii) : bool :=
  let n := nat_of_ascii c in
  ((9 <=? n) && (n <=? 13) || (n =? 32) || (n =? 160))%nat.

Fixpoint trimStart (s : string) : string :=
  match s with
  | EmptyString => EmptyString
  | String c s' => if isWhiteSpace c then trimStart s' else s
  end.

Fixpoint trimEnd (s : string) : string :=
  match s with
  | EmptyString => EmptyString
  | String c s' =>
      match trimEnd s' with
      | EmptyString => if isWhiteSpace c then EmptyString else String c EmptyString
      | t => String c t
      end
  end.

(** [String.prototype.trim]. *)
Definition trim (s : string) : string := trimStart (trimEnd s).

(** The fields of [NodeData] that the two functions read; the callbacks are
    modelled by the effects below. *)
Record NodeData := mkNodeData {
  text : string;
  truncateLength : option Z
}.

(** [data.truncateLength || 150]: [undefined] and [0] are falsy. *)
Definition maxLength (data : NodeData) : Z :=
  match truncateLength data with
  | Some n => if decide (n = 0) then 150 else n
  | None => 150
  end.

Definition truncateText (data : NodeData) (text : string) : string :=
  let maxLength := maxLength data in
  if decide (Z.of_nat (String.length text) ≤ maxLength) then text
  else substring 0 maxLength text +:+ "...".

(** The component state ([useState]) and the callbacks it may invoke. *)
Record EditorState := mkEditorState {
  isEditing : bool;
  editText : string
}.

Inductive Effect : Type :=
| onEdit (nodeId : string) (text : string).

(** [handleSave] returns the callbacks invoked, in order, and the next
    component state. *)
Definition handleSave (id : string) (data : NodeData) (st : EditorState)
  : list Effect * EditorState :=
  let calls :=
    if decide (trim (editText st) ≠ text data) then [onEdit id (editText st)]
    else [] in
  (calls, mkEditorState false (editText st)).

End EditableNode.

(** ** The settings store *)

Module SettingsStore.

Section store.

(** [Preferences], [Workspace], [GenerationSettings] and [ModelConfig] are
    declared in [@/types], which is not among the sources.  The first three
    are left abstract; a [ModelConfig], like the [Partial] of it that
    carries updates, is a plain object: a finite map from property names to
    values of an abstract type. *)
Context {Preferences Workspace GenerationSettings Value : Type}.

Record SettingsState := mkSettingsState {
  preferences : Preferences;
  workspace : Workspace;
  generationSettings : GenerationSettings;
  modelConfigs : gmap string (gmap string Value)
}.

(** [Object.assign(target, source)]: every own property of [source] is
    written to [target]; the other properties of [target] stay. *)
Definition Object_assign (target source : gmap string Value) : gmap string Value :=
  source ∪ target.

(** The state the immer producer leaves: the draft after the recipe. *)
Definition updateModelConfig (name : string) (updates : gmap string Value)
    (state : SettingsState) : SettingsState :=
  match modelConfigs state !! name with
  | Some config =>
      mkSettingsState (preferences state) (workspace state) (generationSettings state)
        (<[name := Object_assign config updates]> (modelConfigs state))
  | None => state
  end.

Definition addModelConfig (name : string) (config : gmap string Value)
    (state : SettingsState) : SettingsState :=
  mkSettingsState (preferences state) (workspace state) (generationSettings state)
    (<[name := config]> (modelConfigs state)).

Definition removeModelConfig (name : string) (state : SettingsState) : SettingsState :=
  mkSettingsState (preferences state) (workspace state) (generationSettings state)
    (delete name (modelConfigs state)).

End store.

(** [defaultModelConfigs], with strings for the property values. *)
Definition chatModel (name : string) : gmap string string :=
  <["name" := name]> (<["type" := "openai-chat"]> ∅).

Definition defaultModelConfigs : gmap string (gmap string string) :=
  <["gpt-4o" := chatModel "gpt-4o"]>
  (<["gpt-4o-mini" := chatModel "gpt-4o-mini"]>
  (<["gpt-4-turbo" := chatModel "gpt-4-turbo"]>
  (<["gpt-3.5-turbo" := chatModel "gpt-3.5-turbo"]> ∅))).

Definition defaultState : @SettingsState unit unit unit string :=
  mkSettingsState () () () defaultModelConfigs.

End SettingsStore.

(** ** The flow nodes and edges of the tree view *)

Module TreeViewFlow.
Import TreeView.

(** Modelled from the spec: the [Tree] type is declared in [@/types]; of the
    fields of the data model section these are the ones the view reads. *)
Record Tree := mkTree {
  rootId : string;
  nodes : gmap string TreeNode;
  currentNodeId : string
}.

(** What the view hands to the flow renderer for one node: [id],
    [position], the label text and the bookmark star of [data.label], and
    the [style] entries that depend on the node. *)
Record FlowNode := mkFlowNode {
  fn_id : string;
  fn_position : Z * Z;
  fn_label : string;
  fn_star : bool;
  fn_background : string;
  fn_border : string;
  fn_width : Z;
  fn_minHeight : Z
}.

Record FlowEdge := mkFlowEdge {
  fe_id : string;
  fe_source : string;
  fe_target : string
}.

(** The callback of [Object.values(tree.nodes).map]. *)
Definition flowNode (tree : Tree) (positions : gmap string (Z * Z)) (node : TreeNode)
  : FlowNode :=
  mkFlowNode
    (id node)
    (match positions !! id node with
     | Some p => p
     | None => (0, 0)
     end)
    (let s := EditableNode.substring 0 50 (text node) in
     if decide (s = "") then "(empty)" else s)
    (bookmark node)
    (if decide (id node = currentNodeId tree) then "#3b82f6" else "#1f2937")
    (if bookmark node then "2px solid #eab308" else "1px solid #374151")
    nodeWidth
    nodeHeight.

(** The callback of [flatMap]: one edge per entry of [node.children]. *)
Definition flowEdges (node : TreeNode) : list FlowEdge :=
  (λ childId, mkFlowEdge (id node +:+ "-" +:+ childId) (id node) childId)
    <$> children node.


End TreeViewFlow.

(** ** The event handlers and the body of the editable node *)

Module EditableNodeEvents.
Import EditableNode.

(** [data] together with the optional flag [data.isLoading]. *)
Record NodeProps := mkNodeProps {
  data : NodeData;
  isLoading : option bool
}.

(** Truthiness of an optional boolean: [undefined] and [false] are falsy. *)
Definition truthy (b : option bool) : bool :=
  match b with
  | Some true => true
  | _ => false
  end.

Definition handleDoubleClick (props : NodeProps) (st : EditorState) : EditorState :=
  if truthy (isLoading props) then st
  else mkEditorState true (text (data props)).

Record KeyboardEvent := mkKeyboardEvent {
  key : string;
  shiftKey : bool
}.

(** What a key press does besides changing the component state. *)
Inductive Action : Type :=
| preventDefault
| invoke (e : Effect)
| setTimeout_onGenerate (nodeId : string) (delay : Z).

Definition handleKeyDown (id : string) (props : NodeProps) (e : KeyboardEvent)
    (st : EditorState) : list Action * EditorState :=
  if decide (key e = "Enter") then
    if shiftKey e then ([], st)
    else
      let '(calls, st') := handleSave id (data props) st in
      (preventDefault :: (invoke <$> calls) ++ [setTimeout_onGenerate id 100], st')
  else if decide (key e = "Escape") then
    ([], mkEditorState false (text (data props)))
  else ([], st).

(** The text area, the loading skeleton or the text, as the component
    renders them. *)
Inductive Body : Type :=
| Textarea (value : string)
| Skeleton
| Text (shown : string).

Definition renderBody (props : NodeProps) (st : EditorState) : Body :=
  if isEditing st then Textarea (editText st)
  else if truthy (isLoading props) then Skeleton
  else
    Text (truncateText (data props)
            (if decide (text (data props) = "") then "(empty - double-click to edit)"
             else text (data props))).

(** Whether the button that opens the full text is rendered. *)
Definition showsDetailButton (props : NodeProps) (st : EditorState) : bool :=
  negb (isEditing st) && negb (truthy (isLoading props))
  && negb (bool_decide (text (data props) = ""))
  && bool_decide (maxLength (data props) < Z.of_nat (String.length (text (data props)))).

End EditableNodeEvents.

(** ** The other actions of the settings store *)

Module SettingsActions.
Import SettingsStore.

(** The [Preferences] and [Workspace] types are declared in [@/types]; the
    fields below are those of [defaultPreferences] and [defaultWorkspace].
    A [Partial] of either has every field optional. *)
Record Preferences := mkPreferences {
  reverse : bool;
  walk : string;
  nav_tag : string;
  editable : bool;
  history_conflict : string;
  coloring : string;
  bold_prompt : bool;
  font_size : Z;
  line_spacing : Z;
  paragraph_spacing : Z;
  revision_history : bool;
  autosave : bool;
  model_response : string;
  prob : bool;
  darkMode : bool
}.

Record PartialPreferences := mkPartialPreferences {
  reverse_opt : option bool;
  walk_opt : option string;
  nav_tag_opt : option string;
  editable_opt : option bool;
  history_conflict_opt : option string;
  coloring_opt : option string;
  bold_prompt_opt : option bool;
  font_size_opt : option Z;
  line_spacing_opt : option Z;
  paragraph_spacing_opt : option Z;
  revision_history_opt : option bool;
  autosave_opt : option bool;
  model_response_opt : option string;
  prob_opt : option bool;
  darkMode_opt : option bool
}.

Record Pane := mkPane {
  open : bool;
  modules : list string
}.

Record Workspace := mkWorkspace {
  side_pane : Pane;
  bottom_pane : Pane;
  buttons : list string;
  alt_textbox : bool;
  show_search : bool
}.

Record PartialWorkspace := mkPartialWorkspace {
  side_pane_opt : option Pane;
  bottom_pane_opt : option Pane;
  buttons_opt : option (list string);
  alt_textbox_opt : option bool;
  show_search_opt : option bool
}.

Definition defaultPreferences : Preferences :=
  mkPreferences false "descendents" "bookmark" true "overwrite" "edit" true
                14 8 10 false true "backup" true true.

Definition defaultWorkspace : Workspace :=
  mkWorkspace (mkPane true ["minimap"]) (mkPane false [])
    ["Edit"; "Delete"; "Generate"; "New Child"; "Next"; "Prev"; "Visualize";
     "Wavefunction"; "Map"]
    false false.

(** One property of [Object.assign]: the source's value when it has the
    property, the target's otherwise. *)
Definition assigned {A : Type} (target : A) (source : option A) : A :=
  match source with
  | Some v => v
  | None => target
  end.

(** [Object.assign(state.preferences, updates)]. *)
Definition assignPreferences (target : Preferences) (source : PartialPreferences)
  : Preferences :=
  mkPreferences
    (assigned (reverse target) (reverse_opt source))
    (assigned (walk target) (walk_opt source))
    (assigned (nav_tag target) (nav_tag_opt source))
    (assigned (editable target) (editable_opt source))
    (assigned (history_conflict target) (history_conflict_opt source))
    (assigned (coloring target) (coloring_opt source))
    (assigned (bold_prompt target) (bold_prompt_opt source))
    (assigned (font_size target) (font_size_opt source))
    (assigned (line_spacing target) (line_spacing_opt source))
    (assigned (paragraph_spacing target) (paragraph_spacing_opt source))
    (assigned (revision_history target) (revision_history_opt source))
    (assigned (autosave target) (autosave_opt source))
    (assigned (model_response target) (model_response_opt source))
    (assigned (prob target) (prob_opt source))
    (assigned (darkMode target) (darkMode_opt source)).

(** [Object.assign(state.workspace, updates)]: a pane in the updates
    replaces the stored pane as a whole. *)
Definition assignWorkspace (target : Workspace) (source : PartialWorkspace) : Workspace :=
  mkWorkspace
    (assigned (side_pane target) (side_pane_opt source))
    (assigned (bottom_pane target) (bottom_pane_opt source))
    (assigned (buttons target) (buttons_opt source))
    (assigned (alt_textbox target) (alt_textbox_opt source))
    (assigned (show_search target) (show_search_opt source)).

Section actions.

(** The generation settings carry fractional numbers; they stay a plain
    object over an abstract type of values, like a model configuration. *)
Context {Value : Type}.

Definition State : Type :=
  @SettingsState Preferences Workspace (gmap string Value) Value.

Definition updatePreferences (updates : PartialPreferences) (state : State) : State :=
  mkSettingsState (assignPreferences (preferences state) updates) (workspace state)
    (generationSettings state) (modelConfigs state).

Definition toggleDarkMode (state : State) : State :=
  let p := preferences state in
  mkSettingsState
    (mkPreferences (reverse p) (walk p) (nav_tag p) (editable p) (history_conflict p)
       (coloring p) (bold_prompt p) (font_size p) (line_spacing p)
       (paragraph_spacing p) (revision_history p) (autosave p) (model_response p)
       (prob p) (negb (darkMode p)))
    (workspace state) (generationSettings state) (modelConfigs state).

Definition updateWorkspace (updates : PartialWorkspace) (state : State) : State :=
  mkSettingsState (preferences state) (assignWorkspace (workspace state) updates)
    (generationSettings state) (modelConfigs state).

Definition toggleSidePane (state : State) : State :=
  let w := workspace state in
  mkSettingsState (preferences state)
    (mkWorkspace (mkPane (negb (open (side_pane w))) (modules (side_pane w)))
       (bottom_pane w) (buttons w) (alt_textbox w) (show_search w))
    (generationSettings state) (modelConfigs state).

Definition toggleBottomPane (state : State) : State :=
  let w := workspace state in
  mkSettingsState (preferences state)
    (mkWorkspace (side_pane w)
       (mkPane (negb (open (bottom_pane w))) (modules (bottom_pane w)))
       (buttons w) (alt_textbox w) (show_search w))
    (generationSettings state) (modelConfigs state).

Definition updateGenerationSettings (updates : gmap string Value) (state : State)
  : State :=
  mkSettingsState (preferences state) (workspace state)
    (Object_assign (generationSettings state) updates) (modelConfigs state).

End actions.

End SettingsActions.

(** ** The layout on the JavaScript heap *)

(** The closures once more, this time with what the embedding above leaves
    to its key convention: the node mapping is an object on the heap, which
    a step could write to, and [nodes[nodeId]] on a plain object also finds
    the members inherited from [Object.prototype].  Such a member is truthy
    and has no [children]: reading [node.children.length] or calling
    [node.children.forEach] on it throws a [TypeError].  The position map
    is only written by the layout, never read; it stays a map from the ids
    written to their positions. *)
Module TreeViewJs.
Import TreeView.

(** The property names every plain object inherits. *)
Definition prototypeMembers : list string :=
  ["constructor"; "hasOwnProperty"; "isPrototypeOf"; "propertyIsEnumerable";
   "toLocaleString"; "toString"; "valueOf"; "__defineGetter__";
   "__defineSetter__"; "__lookupGetter__"; "__lookupSetter__"; "__proto__"].

(** The heap an invocation works on: the node mapping it is handed and the
    objects of [LayoutState]. *)
Record Heap := mkHeap {
  tree_nodes : gmap string TreeNode;
  heap_state : LayoutState
}.

(** How a call ends: it returns a value, or it throws, either way leaving a
    heap; or the fuel of the embedding runs out. *)
Inductive Outcome (A : Type) : Type :=
| Returned (a : A) (h : Heap)
| Thrown (h : Heap)
| OutOfFuel.
Arguments Returned {A} a h.
Arguments Thrown {A} h.
Arguments OutOfFuel {A}.

(** [visited.add(nodeId)] on the closure's set. *)
Definition addVisited (nodeId : string) (h : Heap) : Heap :=
  mkHeap (tree_nodes h)
    (mkLayoutState (positions (heap_state h)) ({[nodeId]} ∪ visited (heap_state h))
       (layoutVisited (heap_state h))).

(** [visited.add(nodeId); positions[nodeId] = { x, y }] in [layout]. *)
Definition enter (nodeId : string) (x y : Z) (h : Heap) : Heap :=
  mkHeap (tree_nodes h)
    (mkLayoutState (<[nodeId := (x, y)]> (positions (heap_state h)))
       (visited (heap_state h)) ({[nodeId]} ∪ layoutVisited (heap_state h))).

(** [reduce] and [forEach] with a callback that may throw. *)
Fixpoint reduce_js (f : Z → string → Heap → Outcome Z) (l : list string)
    (acc : Z) (h : Heap) : Outcome Z :=
  match l with
  | [] => Returned acc h
  | a :: l' =>
      match f acc a h with
      | Returned acc' h' => reduce_js f l' acc' h'
      | Thrown h' => Thrown h'
      | OutOfFuel => OutOfFuel
      end
  end.

Fixpoint calculateSubtreeWidth_js (fuel : nat) (nodeId : string) (h : Heap)
  : Outcome Z :=
  match fuel with
  | O => OutOfFuel
  | S fuel' =>
      match tree_nodes h !! nodeId with
      | Some node =>
          if decide (nodeId ∈ visited (heap_state h)) then Returned 1 h
          else
            let h := addVisited nodeId h in
            match children node with
            | [] => Returned 1 h
            | _ =>
                reduce_js
                  (λ sum childId h,
                     match calculateSubtreeWidth_js fuel' childId h with
                     | Returned w h => Returned (sum + w) h
                     | Thrown h => Thrown h
                     | OutOfFuel => OutOfFuel
                     end)
                  (children node) 0 h
            end
      | None =>
          if decide (nodeId ∈ prototypeMembers) then
            if decide (nodeId ∈ visited (heap_state h)) then Returned 1 h
            else Thrown (addVisited nodeId h)
          else Returned 1 h
      end
  end.

Definition layout_child_js (rec : string → Z → Z → Heap → Outcome Z) (y : Z)
    (currentX : Z) (childId : string) (h : Heap) : Outcome Z :=
  match calculateSubtreeWidth_js (S (size (tree_nodes h))) childId h with
  | Returned childWidth h =>
      let childX :=
        currentX + (childWidth * horizontalSpacing) / 2 - horizontalSpacing / 2 in
      rec childId childX (y + verticalSpacing) h
  | Thrown h => Thrown h
  | OutOfFuel => OutOfFuel
  end.

Fixpoint layout_js (fuel : nat) (nodeId : string) (x y : Z) (h : Heap) : Outcome Z :=
  match fuel with
  | O => OutOfFuel
  | S fuel' =>
      match tree_nodes h !! nodeId with
      | Some node =>
          if decide (nodeId ∈ layoutVisited (heap_state h)) then Returned x h
          else
            match reduce_js (layout_child_js (layout_js fuel') y) (children node) x
                    (enter nodeId x y h) with
            | Returned currentX h => Returned (Z.max currentX (x + horizontalSpacing)) h
            | Thrown h => Thrown h
            | OutOfFuel => OutOfFuel
            end
      | None =>
          if decide (nodeId ∈ prototypeMembers) then
            if decide (nodeId ∈ layoutVisited (heap_state h)) then Returned x h
            else Thrown (enter nodeId x y h)
          else Returned x h
      end
  end.

(** One invocation: whatever an earlier invocation left in the heap, the
    position map and both sets are created anew; the run returns the
    position map. *)
Definition calculateLayout_js (rootId : string) (h : Heap)
  : Outcome (gmap string (Z * Z)) :=
  let h := mkHeap (tree_nodes h) initialState in
  match layout_js (S (size (tree_nodes h))) rootId 0 0 h with
  | Returned _ h => Returned (positions (heap_state h)) h
  | Thrown h => Thrown h
  | OutOfFuel => OutOfFuel
  end.

End TreeViewJs.

(** * Part II: the vocabulary of the statements *)

Import TreeView.

(** [c] is listed among the children of the node stored under [p]. *)
Definition child_of (nodes : gmap string TreeNode) (p c : string) : Prop :=
  ∃ node, nodes !! p = Some node ∧ c ∈ children node.

(** Reachability along children references. *)
Definition reachable (nodes : gmap string TreeNode) : relation string :=
  rtc (child_of nodes).

(** [m] lies [d] children references below [n]. *)
Definition depth_of (nodes : gmap string TreeNode) (d : nat) : relation string :=
  nsteps (child_of nodes) d.

(** ** Acyclic trees *)

(** The finite unfolding of a node mapping from an id: a rose tree whose
    nodes carry the ids met on the way down. *)
Inductive rtree : Type := RNode (n : string) (ks : list rtree).

Definition root (t : rtree) : string := match t with RNode n _ => n end.

Fixpoint ids (t : rtree) : list string :=
  match t with
  | RNode n ks => n :: flat_map ids ks
  end.

Fixpoint leaves (t : rtree) : Z :=
  match t with
  | RNode _ [] => 1
  | RNode _ ks => fold_right (λ k acc, leaves k + acc) 0 ks
  end.

(** [unfolds nodes n t]: following children references from [n] yields
    exactly the tree [t]; in particular every referenced id exists and the
    walk down from [n] is finite. *)
Inductive unfolds (nodes : gmap string TreeNode) : string → rtree → Prop :=
| unfolds_node n node ks :
    nodes !! n = Some node →
    Forall2 (unfolds nodes) (children node) ks →
    unfolds nodes n (RNode n ks).

(** An acyclic tree below [rootId]: the unfolding exists (all children ids
    exist, no cycle) and no id occurs in it twice (no node is reachable
    twice from the root). *)
Definition acyclic_tree (nodes : gmap string TreeNode) (rootId : string) : Prop :=
  ∃ t, unfolds nodes rootId t ∧ NoDup (ids t).

(** ** Placement invariant *)

(** [placed pos t x r y]: in the position map [pos] the root of [t] sits at
    [(x, y)], its children are laid out in order on the next row, and the
    whole of [t] occupies the columns from [x] up to [r] minus one spacing.
    [placed_row pos ks cur r y]: the forest [ks] is laid out left to right
    on row [y], no further left than [cur], ending by [r]. *)
Inductive placed (pos : gmap string (Z * Z)) : rtree → Z → Z → Z → Prop :=
| placed_node n ks x r y :
    pos !! n = Some (x, y) →
    x + horizontalSpacing ≤ r →
    placed_row pos ks x r (y + verticalSpacing) →
    placed pos (RNode n ks) x r y
with placed_row (pos : gmap string (Z * Z)) : list rtree → Z → Z → Z → Prop :=
| placed_row_nil cur r y :
    cur ≤ r → placed_row pos [] cur r y
| placed_row_cons k ks cur cx mid r y :
    cur ≤ cx →
    placed pos k cx mid y →
    placed_row pos ks mid r y →
    placed_row pos (k :: ks) cur r y.

Scheme placed_min := Minimality for placed Sort Prop
  with placed_row_min := Minimality for placed_row Sort Prop.
Combined Scheme placed_mutind from placed_min, placed_row_min.

(** The termination measure of both closures: the ids of the node mapping
    not yet in the visited set. *)
Definition unvisited (nodes : gmap string TreeNode) (vis : gset string) : nat :=
  size (dom nodes ∖ vis).

(** What one call of [layout] does to the set of visited ids: it only
    grows, it contains the node just laid out, every id it gained has all
    its existing children in it, and every id in it has a position. *)
Definition walked (nodes : gmap string TreeNode) (st st' : LayoutState) : Prop :=
  layoutVisited st ⊆ layoutVisited st'
  ∧ (∀ m c, m ∈ layoutVisited st' → m ∉ layoutVisited st →
            child_of nodes m c → is_Some (nodes !! c) → c ∈ layoutVisited st')
  ∧ (layoutVisited st ⊆ dom (positions st) →
     layoutVisited st' ⊆ dom (positions st')).

(** The contract of [layout] with a given fuel on a subtree none of whose
    ids has been visited: it places the subtree, visits exactly its ids and
    writes no other position. *)
Definition lays_out (nodes : gmap string TreeNode) (fuel : nat) : Prop :=
  ∀ t n x y st r st',
    unfolds nodes n t → NoDup (ids t) →
    (∀ a, a ∈ ids t → a ∉ layoutVisited st) →
    layout nodes fuel n x y st = Some (r, st') →
    placed (positions st') t x r y
    ∧ layoutVisited st' = layoutVisited st ∪ list_to_set (ids t)
    ∧ (∀ a, a ∉ ids t → positions st' !! a = positions st !! a).

(** Two node mappings of the same shape: the same ids, with the same
    children arrays; texts, bookmarks and parent links may differ. *)
Definition same_shape (nodes nodes' : gmap string TreeNode) : Prop :=
  ∀ nodeId, children <$> nodes !! nodeId = children <$> nodes' !! nodeId.

(** ** The truncation contract *)

Module TruncateSpec.
Import EditableNode.

(** The limit as the claim words it: the supplied [truncateLength], or 150
    when none is supplied. *)
Definition limit_as_claimed (data : NodeData) : Z :=
  match truncateLength data with
  | Some n => n
  | None => 150
  end.

(** The truncation contract for a given limit. *)
Definition truncates_at (limit : Z) (data : NodeData) (text : string) : Prop :=
  (Z.of_nat (String.length text) ≤ limit → truncateText data text = text)
  ∧ (limit < Z.of_nat (String.length text) →
     truncateText data text = String.substring 0 (Z.to_nat limit) text +:+ "...")
  ∧ Z.of_nat (String.length (truncateText data text)) ≤ limit + 3.

End TruncateSpec.

(** ** Sample inputs *)

Definition leafNode (i p : string) : TreeNode := mkTreeNode i "" (Some p) [] false.

(** A sample tree: [r] has the children [a] and [b], [a] has the leaves [c]
    and [d]. *)
Definition sampleTree : gmap string TreeNode :=
  <["r" := mkTreeNode "r" "" None ["a"; "b"] false]>
  (<["a" := mkTreeNode "a" "" (Some "r") ["c"; "d"] false]>
  (<["b" := leafNode "b" "r"]>
  (<["c" := leafNode "c" "a"]>
  (<["d" := leafNode "d" "a"]> ∅)))).

(** Sets the bookmark of a node and rewrites its text. *)
Definition annotate (node : TreeNode) : TreeNode :=
  mkTreeNode (id node) "annotated" (parentId node) (children node) true.

(** A cyclic mapping with a dangling reference: [r] lists [a], the missing
    id [zz] and itself; [a] lists [r], itself and the leaf [b]. *)
Definition cyclicTree : gmap string TreeNode :=
  <["r" := mkTreeNode "r" "" None ["a"; "zz"; "r"] false]>
  (<["a" := mkTreeNode "a" "" (Some "r") ["r"; "a"; "b"] false]>
  (<["b" := leafNode "b" "a"]> ∅)).

(** A chain with a fork at the bottom: [r] - [a] - [b] - {[c], [d]}. *)
Definition chainTree : gmap string TreeNode :=
  <["r" := mkTreeNode "r" "" None ["a"] false]>
  (<["a" := mkTreeNode "a" "" (Some "r") ["b"] false]>
  (<["b" := mkTreeNode "b" "" (Some "a") ["c"; "d"] false]>
  (<["c" := leafNode "c" "b"]>
  (<["d" := leafNode "d" "b"]> ∅)))).

(** A root with one child [p] that has the two leaves [a] and [b]. *)
Definition forkTree : gmap string TreeNode :=
  <["r" := mkTreeNode "r" "" None ["p"] false]>
  (<["p" := mkTreeNode "p" "" (Some "r") ["a"; "b"] false]>
  (<["a" := leafNode "a" "p"]>
  (<["b" := leafNode "b" "p"]> ∅))).

(** ** Further vocabulary for the layout *)

(** The ids of the leaves of an unfolding, left to right. *)
Fixpoint leaf_ids (t : rtree) : list string :=
  match t with
  | RNode n [] => [n]
  | RNode _ ks => flat_map leaf_ids ks
  end.


(** Two positions a full spacing apart, horizontally or vertically. *)
Definition apart (p q : Z * Z) : Prop :=
  p.1 + horizontalSpacing ≤ q.1 ∨ q.1 + horizontalSpacing ≤ p.1
  ∨ p.2 + verticalSpacing ≤ q.2 ∨ q.2 + verticalSpacing ≤ p.2.

(** ** Further vocabulary for the editable node and the settings *)

Module TrimSpec.
Import EditableNode.

(** A text made of white space only. *)
Fixpoint all_ws (s : string) : bool :=
  match s with
  | EmptyString => true
  | String c s' => isWhiteSpace c && all_ws s'
  end.

End TrimSpec.

Module MergeSpec.
Import SettingsActions.

(** Two partial updates in a row, as one: the later value of a property
    wins. *)
Definition merged {A : Type} (first second : option A) : option A :=
  match second with
  | Some v => Some v
  | None => first
  end.

Definition mergePreferences (u1 u2 : PartialPreferences) : PartialPreferences :=
  mkPartialPreferences
    (merged (reverse_opt u1) (reverse_opt u2))
    (merged (walk_opt u1) (walk_opt u2))
    (merged (nav_tag_opt u1) (nav_tag_opt u2))
    (merged (editable_opt u1) (editable_opt u2))
    (merged (history_conflict_opt u1) (history_conflict_opt u2))
    (merged (coloring_opt u1) (coloring_opt u2))
    (merged (bold_prompt_opt u1) (bold_prompt_opt u2))
    (merged (font_size_opt u1) (font_size_opt u2))
    (merged (line_spacing_opt u1) (line_spacing_opt u2))
    (merged (paragraph_spacing_opt u1) (paragraph_spacing_opt u2))
    (merged (revision_history_opt u1) (revision_history_opt u2))
    (merged (autosave_opt u1) (autosave_opt u2))
    (merged (model_response_opt u1) (model_response_opt u2))
    (merged (prob_opt u1) (prob_opt u2))
    (merged (darkMode_opt u1) (darkMode_opt u2)).

Definition mergeWorkspace (u1 u2 : PartialWorkspace) : PartialWorkspace :=
  mkPartialWorkspace
    (merged (side_pane_opt u1) (side_pane_opt u2))
    (merged (bottom_pane_opt u1) (bottom_pane_opt u2))
    (merged (buttons_opt u1) (buttons_opt u2))
    (merged (alt_textbox_opt u1) (alt_textbox_opt u2))
    (merged (show_search_opt u1) (show_search_opt u2)).

(** The update that names [darkMode] only. *)
Definition onlyDarkMode (b : bool) : PartialPreferences :=
  mkPartialPreferences None None None None None None None None None None None None
                       None None (Some b).

End MergeSpec.

(** ** Vocabulary for the layout on the heap *)

(** [nodeId] is not a key of the mapping and names a member inherited from
    [Object.prototype]: the lookup [nodes[nodeId]] finds that member. *)
Definition names_inherited (nodes : gmap string TreeNode) (nodeId : string) : Prop :=
  nodes !! nodeId = None ∧ nodeId ∈ TreeViewJs.prototypeMembers.

(** The key convention of the embedding above, for the ids a layout from
    [rootId] looks up: none of them is found on the prototype. *)
Definition own_keys_only (nodes : gmap string TreeNode) (rootId : string) : Prop :=
  ∀ nodeId, reachable nodes rootId nodeId → ¬ names_inherited nodes nodeId.

#[global] Instance names_inherited_dec (nodes : gmap string TreeNode) (nodeId : string) :
  Decision (names_inherited nodes nodeId).
Proof. unfold names_inherited. apply _. Defined.

(** How a call on the heap ended: with the value [a], by throwing, and in
    which heap. *)
Definition returns {A : Type} (o : TreeViewJs.Outcome A) (a : A) : Prop :=
  ∃ h, o = TreeViewJs.Returned a h.

Definition throws {A : Type} (o : TreeViewJs.Outcome A) : Prop :=
  ∃ h, o = TreeViewJs.Thrown h.

Definition ends_in {A : Type} (o : TreeViewJs.Outcome A) (h : TreeViewJs.Heap) : Prop :=
  (∃ a, o = TreeViewJs.Returned a h) ∨ o = TreeViewJs.Thrown h.

(** A root whose only child reference is dangling and names an inherited
    member. *)
Definition inheritedNameTree : gmap string TreeNode :=
  <["r" := mkTreeNode "r" "" None ["constructor"] false]> ∅.

(** A heap in which an earlier invocation has left its objects behind. *)
Definition usedHeap : TreeViewJs.Heap :=
  TreeViewJs.mkHeap cyclicTree
    (mkLayoutState {["zz" := (7, 7)]} {["r"]} {["r"; "a"]}).

(** * Part III: proofs *)

#[local] Arguments layout_child : simpl never.

(** ** Facts about [reduce] *)

Section reduce_facts.
Context {A B : Type}.
Implicit Types (f g : B → A → option B) (l : list A) (acc : B).

(** An invariant of the callback is an invariant of the fold. *)
Lemma reduce_invariant (P : B → Prop) f l acc r :
  P acc →
  (∀ acc a b, a ∈ l → P acc → f acc a = Some b → P b) →
  reduce f l acc = Some r → P r.
Proof.
  revert acc. induction l as [|a l IH]; intros acc Hacc Hstep; simpl.
  - intros [= <-]. exact Hacc.
  - destruct (f acc a) as [b|] eqn:Hf; [|discriminate].
    apply IH.
    + eapply Hstep; [left | exact Hacc | exact Hf].
    + intros acc' a' b' Hin. apply Hstep. by right.
Qed.

(** A callback that succeeds under an invariant makes the fold succeed. *)
Lemma reduce_total (P : B → Prop) f l acc :
  P acc →
  (∀ acc a, a ∈ l → P acc → ∃ b, f acc a = Some b ∧ P b) →
  ∃ r, reduce f l acc = Some r ∧ P r.
Proof.
  revert acc. induction l as [|a l IH]; intros acc Hacc Hstep; simpl.
  - eauto.
  - destruct (Hstep acc a) as (b & -> & Hb); [left | done |].
    apply IH; [done|]. intros acc' a' Hin. apply Hstep. by right.
Qed.

(** Replacing the callback by one that agrees with it wherever it
    succeeds does not change a successful fold. *)
Lemma reduce_ext_Some f g l acc r :
  (∀ acc a b, f acc a = Some b → g acc a = Some b) →
  reduce f l acc = Some r → reduce g l acc = Some r.
Proof.
  intros Hfg. revert acc. induction l as [|a l IH]; intros acc; simpl; [done|].
  destruct (f acc a) as [b|] eqn:Hf; [|discriminate].
  rewrite (Hfg _ _ _ Hf). apply IH.
Qed.

Lemma reduce_ext f g l acc :
  (∀ acc a, f acc a = g acc a) → reduce f l acc = reduce g l acc.
Proof.
  intros Hfg. revert acc. induction l as [|a l IH]; intros acc; simpl; [done|].
  rewrite Hfg. destruct (g acc a); [apply IH | done].
Qed.

(** An invariant [P] together with a fact [Q a] established when the
    element [a] is processed and kept by every later step. *)
Lemma reduce_each (P : B → Prop) (Q : A → B → Prop) f l acc r :
  P acc →
  (∀ acc a b, a ∈ l → P acc → f acc a = Some b → P b ∧ Q a b) →
  (∀ a acc a' b, Q a acc → P acc → f acc a' = Some b → Q a b) →
  reduce f l acc = Some r → P r ∧ ∀ a, a ∈ l → Q a r.
Proof.
  intros Hacc Hstep Hstable Hred.
  cut (∀ (D : A → Prop), (∀ a, D a → Q a acc) →
         P r ∧ ∀ a, D a ∨ a ∈ l → Q a r).
  { intros Hcut. destruct (Hcut (λ _, False)) as [HP HQ]; [done|].
    split; [done|]. intros a Ha. apply HQ. by right. }
  revert acc Hacc Hstep Hred.
  induction l as [|a l IH]; intros acc Hacc Hstep; simpl.
  - intros [= <-] D HD. split; [done|].
    intros a [Ha|Ha]; [by apply HD | by apply elem_of_nil in Ha].
  - destruct (f acc a) as [b|] eqn:Hf; [|discriminate]. intros Hr D HD.
    destruct (Hstep acc a b) as [Hb HQ]; [left | done | done |].
    destruct (IH b Hb) with (D := λ a', D a' ∨ a' = a) as [HP HQs].
    + intros acc' a' b' Hin. apply Hstep. by right.
    + done.
    + intros a' [Ha'| ->]; [|done]. eapply Hstable; [by apply HD | done | done].
    + split; [done|]. intros a' [Ha'|Ha'].
      * apply HQs. left. by left.
      * apply elem_of_cons in Ha' as [->|Ha']; apply HQs; [left; by right | by right].
Qed.

End reduce_facts.

Lemma rtree_forall_ind (P : rtree → Prop) :
  (∀ n ks, Forall P ks → P (RNode n ks)) → ∀ t, P t.
Proof.
  intros Hnode. fix IH 1. intros [n ks]. apply Hnode.
  induction ks as [|k ks IHks]; constructor; [apply IH | apply IHks].
Qed.

(** ** Termination and monotonicity of the two closures *)

Section closure_facts.
Variable nodes : gmap string TreeNode.

Lemma unvisited_mono vis vis' :
  vis ⊆ vis' → (unvisited nodes vis' ≤ unvisited nodes vis)%nat.
Proof. intros Hsub. unfold unvisited. apply subseteq_size. set_solver. Qed.

Lemma unvisited_add n vis :
  n ∈ dom nodes → n ∉ vis → (unvisited nodes ({[n]} ∪ vis) < unvisited nodes vis)%nat.
Proof.
  intros Hn Hvis. unfold unvisited. apply subset_size. split; [set_solver|].
  intros Hsub. assert (n ∈ dom nodes ∖ ({[n]} ∪ vis)) by set_solver. set_solver.
Qed.

Lemma unvisited_le_size vis : (unvisited nodes vis ≤ size nodes)%nat.
Proof.
  unfold unvisited. rewrite <- (size_dom (D := gset string) nodes).
  apply subseteq_size. set_solver.
Qed.

(** What a successful width computation guarantees: the set only grows
    and the width is at least one. *)
Lemma calculateSubtreeWidth_fuel_sound fuel nodeId vis w vis' :
  calculateSubtreeWidth_fuel nodes fuel nodeId vis = Some (w, vis') →
  vis ⊆ vis' ∧ 1 ≤ w.
Proof.
  revert nodeId vis w vis'.
  induction fuel as [|fuel IH]; intros nodeId vis w vis'; simpl; [done|].
  destruct (nodes !! nodeId) as [node|] eqn:Hnode; [|by intros [= <- <-]].
  destruct (decide (nodeId ∈ vis)) as [Hin|Hnin]; [by intros [= <- <-]|].
  destruct (children node) as [|c cs] eqn:Hcs.
  { intros [= <- <-]. split; [set_solver | lia]. }
  intros Hred.
  set (l := c :: cs) in *.
  assert (∀ (l : list string) acc r,
    reduce (λ '(sum, visited) childId,
              match calculateSubtreeWidth_fuel nodes fuel childId visited with
              | Some (w, visited) => Some (sum + w, visited)
              | None => None
              end) l acc = Some r →
    acc.2 ⊆ r.2 ∧ acc.1 + Z.of_nat (length l) ≤ r.1) as Haux.
  { clear -IH. intros l. induction l as [|a l IHl]; intros [s v] r; simpl.
    - intros [= <-]. simpl. split; [done | lia].
    - destruct (calculateSubtreeWidth_fuel nodes fuel a v) as [[w1 v1]|] eqn:Hc;
        [|discriminate].
      intros Hr. apply IH in Hc as [Hv Hw]. apply IHl in Hr as [Hv' Hs].
      simpl in *. split; [set_solver | lia]. }
  apply Haux in Hred as [Hv Hs]. subst l. simpl in *. split; [set_solver | lia].
Qed.

(** A width computation that returns has marked the id it was called on. *)
Lemma calculateSubtreeWidth_fuel_marks fuel nodeId vis w vis' :
  calculateSubtreeWidth_fuel nodes fuel nodeId vis = Some (w, vis') →
  is_Some (nodes !! nodeId) → nodeId ∈ vis'.
Proof.
  destruct fuel as [|fuel]; simpl; [done|]. intros Hrun [node Hnode].
  rewrite Hnode in Hrun.
  destruct (decide (nodeId ∈ vis)) as [Hin|Hnin]; [by injection Hrun as <- <-|].
  destruct (children node) as [|c cs]; [injection Hrun as <- <-; set_solver|].
  apply (reduce_invariant (λ acc : Z * gset string, nodeId ∈ acc.2)) in Hrun;
    [done | simpl; set_solver |].
  intros [s v] a [s' v'] _ Hv. simpl in *.
  destruct (calculateSubtreeWidth_fuel nodes fuel a v) as [[w1 v1]|] eqn:Hc; [|done].
  intros [= <- <-]. apply calculateSubtreeWidth_fuel_sound in Hc as [Hsub _].
  set_solver.
Qed.

End closure_facts.

Section closure_termination.
Variable nodes : gmap string TreeNode.

(** Enough fuel: one more than the number of unvisited ids. *)
Lemma calculateSubtreeWidth_fuel_total fuel nodeId vis :
  (unvisited nodes vis < fuel)%nat →
  is_Some (calculateSubtreeWidth_fuel nodes fuel nodeId vis).
Proof.
  revert nodeId vis.
  induction fuel as [|fuel IH]; intros nodeId vis Hlt; simpl; [lia|].
  destruct (nodes !! nodeId) as [node|] eqn:Hnode; [|by eexists].
  destruct (decide (nodeId ∈ vis)) as [Hin|Hnin]; [by eexists|].
  destruct (children node) as [|c cs] eqn:Hcs; [by eexists|].
  assert (nodeId ∈ dom nodes) as Hdom by (apply elem_of_dom; eauto).
  pose proof (unvisited_add nodes nodeId vis Hdom Hnin) as Hadd.
  match goal with
  | |- is_Some (reduce ?f ?l ?a0) =>
      destruct (reduce_total
                  (λ p : Z * gset string, {[nodeId]} ∪ vis ⊆ p.2) f l a0)
        as (r & Hr & _); [| |by rewrite Hr]
  end.
  - done.
  - intros [s v] a _ Hv. simpl in Hv.
    destruct (IH a v) as [[w v'] Hw].
    { pose proof (unvisited_mono nodes _ _ Hv). lia. }
    rewrite Hw. eexists. split; [done|].
    apply calculateSubtreeWidth_fuel_sound in Hw as [? _]. simpl. set_solver.
Qed.

(** More fuel never changes a result. *)
Lemma calculateSubtreeWidth_fuel_mono fuel fuel' nodeId vis r :
  (fuel ≤ fuel')%nat →
  calculateSubtreeWidth_fuel nodes fuel nodeId vis = Some r →
  calculateSubtreeWidth_fuel nodes fuel' nodeId vis = Some r.
Proof.
  revert fuel' nodeId vis r.
  induction fuel as [|fuel IH]; intros fuel' nodeId vis r Hle; simpl; [done|].
  destruct fuel' as [|fuel']; [lia|]. simpl.
  destruct (nodes !! nodeId) as [node|]; [|done].
  destruct (decide (nodeId ∈ vis)); [done|].
  destruct (children node) as [|c cs]; [done|].
  apply reduce_ext_Some. intros [s v] a b.
  destruct (calculateSubtreeWidth_fuel nodes fuel a v) as [[w v']|] eqn:Hw; [|done].
  rewrite (IH fuel' a v (w, v')); [done | lia | done].
Qed.

(** The call [calculateSubtreeWidth(childId)] always returns. *)
Lemma calculateSubtreeWidth_returns nodeId vis :
  ∃ w vis', calculateSubtreeWidth nodes nodeId vis = Some (w, vis')
            ∧ vis ⊆ vis' ∧ 1 ≤ w.
Proof.
  destruct (calculateSubtreeWidth_fuel_total (S (size nodes)) nodeId vis)
    as [[w vis'] Hw].
  { pose proof (unvisited_le_size nodes vis). lia. }
  exists w, vis'. split; [done|]. by eapply calculateSubtreeWidth_fuel_sound.
Qed.

(** A revisit or a dangling reference is a stopped branch of width 1. *)
Lemma calculateSubtreeWidth_stopped nodeId vis :
  nodes !! nodeId = None ∨ nodeId ∈ vis →
  calculateSubtreeWidth nodes nodeId vis = Some (1, vis).
Proof.
  unfold calculateSubtreeWidth. simpl. intros [->|Hin]; [done|].
  destruct (nodes !! nodeId); [|done]. by rewrite decide_True.
Qed.

Lemma layout_stopped fuel nodeId x y st :
  nodes !! nodeId = None ∨ nodeId ∈ layoutVisited st →
  layout nodes (S fuel) nodeId x y st = Some (x, st).
Proof.
  simpl. intros [->|Hin]; [done|].
  destruct (nodes !! nodeId); [|done]. by rewrite decide_True.
Qed.

(** The exact division in [childX]: the child is shifted right by half a
    spacing for every unit of width beyond the first. *)
Lemma childX_eq currentX childWidth :
  currentX + (childWidth * horizontalSpacing) / 2 - horizontalSpacing / 2
  = currentX + 125 * (childWidth - 1).
Proof.
  unfold horizontalSpacing.
  replace (childWidth * 250) with (125 * childWidth * 2) by lia.
  rewrite Z.div_mul by lia. change (250 / 2) with 125. lia.
Qed.

End closure_termination.

(** ** The depth-first walk of [layout] on an arbitrary node mapping *)

Section layout_walk.
Variable nodes : gmap string TreeNode.

Lemma layout_child_inv rec y currentX st childId r :
  layout_child nodes rec y (currentX, st) childId = Some r →
  ∃ w v, calculateSubtreeWidth nodes childId (visited st) = Some (w, v)
         ∧ 1 ≤ w
         ∧ rec childId (currentX + 125 * (w - 1)) (y + verticalSpacing)
               (mkLayoutState (positions st) v (layoutVisited st)) = Some r.
Proof.
  unfold layout_child.
  destruct (calculateSubtreeWidth nodes childId (visited st)) as [[w v]|] eqn:Hw;
    [|done].
  rewrite childX_eq. intros Hrec. exists w, v. split; [done|]. split; [|done].
  by apply calculateSubtreeWidth_fuel_sound in Hw as [_ ?].
Qed.

Lemma walked_refl st : walked nodes st st.
Proof. split; [done|]. split; [|done]. intros m c Hin Hnin. done. Qed.

Lemma walked_trans st1 st2 st3 : walked nodes st1 st2 → walked nodes st2 st3 → walked nodes st1 st3.
Proof.
  intros (Hs1 & Hc1 & Hp1) (Hs2 & Hc2 & Hp2). split; [set_solver|]. split.
  - intros m c Hin Hnin Hch Hc.
    destruct (decide (m ∈ layoutVisited st2)) as [Hin2|Hnin2].
    + apply Hs2. by eapply Hc1.
    + by eapply Hc2.
  - auto.
Qed.

Lemma layout_walked fuel nodeId x y st r st' :
  layout nodes fuel nodeId x y st = Some (r, st') →
  walked nodes st st' ∧ (is_Some (nodes !! nodeId) → nodeId ∈ layoutVisited st') ∧ x ≤ r.
Proof.
  revert nodeId x y st r st'.
  induction fuel as [|fuel IH]; intros nodeId x y st r st'; simpl; [done|].
  destruct (nodes !! nodeId) as [node|] eqn:Hnode.
  2:{ intros [= <- <-]. split; [apply walked_refl|].
      split; [by intros [? ?] | lia]. }
  destruct (decide (nodeId ∈ layoutVisited st)) as [Hin|Hnin].
  { intros [= <- <-]. split; [apply walked_refl|]. split; [done | lia]. }
  set (st1 := mkLayoutState _ _ _).
  destruct (reduce _ _ _) as [[currentX st2]|] eqn:Hred; [|done].
  intros [= <- <-].
  apply (reduce_each
           (λ acc : Z * LayoutState, walked nodes st1 acc.2 ∧ x ≤ acc.1)
           (λ c (acc : Z * LayoutState),
              is_Some (nodes !! c) → c ∈ layoutVisited acc.2)) in Hred.
  - destruct Hred as [[(Hs & Hc & Hp) Hx] Hkids]. simpl in *.
    split; [|split; [set_solver | lia]].
    split; [set_solver|]. split.
    + intros m c Hm Hm' Hch Hsome.
      destruct (decide (m = nodeId)) as [->|Hne].
      * destruct Hch as (node' & Hnode' & Hcin).
        rewrite Hnode in Hnode'. injection Hnode' as <-. by apply Hkids.
      * eapply Hc; [done | set_solver | done | done].
    + intros Hdom. apply Hp. rewrite dom_insert. set_solver.
  - split; [apply walked_refl | simpl; lia].
  - intros [cur s] c [cur' s'] Hcin [Hw Hx] Hstep. simpl in *.
    apply layout_child_inv in Hstep as (w & v & _ & Hw1 & Hrec).
    apply IH in Hrec as (Hw' & Hc' & Hx'). simpl in *.
    split; [split; [|lia] | done].
    eapply walked_trans; [exact Hw|]. exact Hw'.
  - intros c [cur s] c' [cur' s'] HQ [Hw Hx] Hstep Hsome. simpl in *.
    apply layout_child_inv in Hstep as (w & v & _ & Hw1 & Hrec).
    apply IH in Hrec as ((Hs' & _) & _). simpl in *. set_solver.
Qed.

(** Enough fuel for [layout]: one more than the number of ids it has not
    visited yet. *)
Lemma layout_total fuel nodeId x y st :
  (unvisited nodes (layoutVisited st) < fuel)%nat →
  is_Some (layout nodes fuel nodeId x y st).
Proof.
  revert nodeId x y st.
  induction fuel as [|fuel IH]; intros nodeId x y st Hlt; simpl; [lia|].
  destruct (nodes !! nodeId) as [node|] eqn:Hnode; [|by eexists].
  destruct (decide (nodeId ∈ layoutVisited st)) as [Hin|Hnin]; [by eexists|].
  assert (nodeId ∈ dom nodes) as Hdom by (apply elem_of_dom; eauto).
  pose proof (unvisited_add nodes nodeId _ Hdom Hnin) as Hadd.
  match goal with
  | |- is_Some (match reduce ?f ?l ?a0 with _ => _ end) =>
      destruct (reduce_total
                  (λ p : Z * LayoutState,
                     {[nodeId]} ∪ layoutVisited st ⊆ layoutVisited p.2) f l a0)
        as ([cur s] & Hr & _); [| |by rewrite Hr]
  end.
  - done.
  - intros [cur s] c _ Hs. simpl in Hs. unfold layout_child.
    destruct (calculateSubtreeWidth_returns nodes c (visited s))
      as (w & v & -> & _ & _).
    match goal with
    | |- ∃ b, layout nodes fuel c ?cx ?cy ?s0 = Some b ∧ _ =>
        destruct (IH c cx cy s0) as [[r s'] Hrec]
    end.
    { simpl. pose proof (unvisited_mono nodes _ _ Hs). lia. }
    rewrite Hrec. eexists. split; [done|].
    apply layout_walked in Hrec as ((Hs' & _) & _). simpl in *. set_solver.
Qed.

(** More fuel never changes the result of [layout]. *)
Lemma layout_mono fuel fuel' nodeId x y st r :
  (fuel ≤ fuel')%nat →
  layout nodes fuel nodeId x y st = Some r →
  layout nodes fuel' nodeId x y st = Some r.
Proof.
  revert fuel' nodeId x y st r.
  induction fuel as [|fuel IH]; intros fuel' nodeId x y st r Hle; simpl; [done|].
  destruct fuel' as [|fuel']; [lia|]. simpl.
  destruct (nodes !! nodeId) as [node|]; [|done].
  destruct (decide (nodeId ∈ layoutVisited st)); [done|].
  destruct (reduce _ _ _) as [[cur s]|] eqn:Hred; [|done].
  intros [= <-].
  apply (reduce_ext_Some _ (layout_child nodes (layout nodes fuel') y))
    in Hred; [by rewrite Hred|].
  intros [cur0 s0] c b. unfold layout_child.
  destruct (calculateSubtreeWidth nodes c (visited s0)) as [[w v]|]; [|done].
  apply IH. lia.
Qed.

End layout_walk.

(** ** Consequences of the placement invariant *)

Section placed_facts.
Implicit Types (pos : gmap string (Z * Z)) (t k : rtree) (ks : list rtree).

Lemma elem_of_ids_root t : root t ∈ ids t.
Proof. destruct t; simpl. by left. Qed.

Lemma elem_of_flat_map_ids a ks :
  a ∈ flat_map ids ks ↔ ∃ k, k ∈ ks ∧ a ∈ ids k.
Proof.
  rewrite list_elem_of_In, in_flat_map. setoid_rewrite list_elem_of_In. done.
Qed.

(** Every id of a placed tree has a position inside the tree's columns. *)
Lemma placed_bounds_both pos :
  (∀ t x r y, placed pos t x r y →
     ∀ a, a ∈ ids t →
       ∃ xa ya, pos !! a = Some (xa, ya) ∧ x ≤ xa ∧ xa + horizontalSpacing ≤ r)
  ∧ (∀ ks cur r y, placed_row pos ks cur r y →
       cur ≤ r ∧
       ∀ a, a ∈ flat_map ids ks →
         ∃ xa ya, pos !! a = Some (xa, ya) ∧ cur ≤ xa ∧ xa + horizontalSpacing ≤ r).
Proof.
  apply placed_mutind.
  - intros n ks x r y Hn Hxr _ [Hle IH] a Ha. simpl in Ha.
    apply elem_of_cons in Ha as [->|Ha]; [|by apply IH].
    exists x, y. split; [done|]. split; [lia | done].
  - intros cur r y Hle. split; [done|]. intros a Ha. by apply elem_of_nil in Ha.
  - intros k ks cur cx mid r y Hcx _ IHk _ [Hle IHks].
    destruct (IHk (root k) (elem_of_ids_root k)) as (x0 & y0 & _ & Hx0 & Hx0').
    unfold horizontalSpacing in *.
    split; [lia|]. intros a Ha. simpl in Ha. apply elem_of_app in Ha as [Ha|Ha].
    + destruct (IHk a Ha) as (xa & ya & Hpa & ? & ?).
      exists xa, ya. split; [done|]. lia.
    + destruct (IHks a Ha) as (xa & ya & Hpa & ? & ?).
      exists xa, ya. split; [done|]. lia.
Qed.

Lemma placed_bounds pos t x r y :
  placed pos t x r y →
  ∀ a, a ∈ ids t →
    ∃ xa ya, pos !! a = Some (xa, ya) ∧ x ≤ xa ∧ xa + horizontalSpacing ≤ r.
Proof. apply placed_bounds_both. Qed.

Lemma placed_row_bounds pos ks cur r y :
  placed_row pos ks cur r y →
  cur ≤ r ∧
  ∀ a, a ∈ flat_map ids ks →
    ∃ xa ya, pos !! a = Some (xa, ya) ∧ cur ≤ xa ∧ xa + horizontalSpacing ≤ r.
Proof. apply placed_bounds_both. Qed.

(** The invariant only looks at the positions of the tree's own ids. *)
Lemma placed_frame_both pos pos' :
  (∀ t x r y, placed pos t x r y →
     (∀ a, a ∈ ids t → pos' !! a = pos !! a) → placed pos' t x r y)
  ∧ (∀ ks cur r y, placed_row pos ks cur r y →
       (∀ a, a ∈ flat_map ids ks → pos' !! a = pos !! a) →
       placed_row pos' ks cur r y).
Proof.
  apply placed_mutind.
  - intros n ks x r y Hn Hxr _ IH Hsame. constructor; [|done|].
    + rewrite Hsame; [done|]. simpl. by left.
    + apply IH. intros a Ha. apply Hsame. simpl. by right.
  - intros. by constructor.
  - intros k ks cur cx mid r y Hcx _ IHk _ IHks Hsame.
    econstructor; [done| |].
    + apply IHk. intros a Ha. apply Hsame. simpl. apply elem_of_app. by left.
    + apply IHks. intros a Ha. apply Hsame. simpl. apply elem_of_app. by right.
Qed.

Lemma placed_frame pos pos' t x r y :
  placed pos t x r y →
  (∀ a, a ∈ ids t → pos' !! a = pos !! a) → placed pos' t x r y.
Proof. apply placed_frame_both. Qed.

Lemma placed_row_weaken pos ks cur r r' y :
  placed_row pos ks cur r y → r ≤ r' → placed_row pos ks cur r' y.
Proof.
  intros H. revert r'. induction H as [cur r y Hle | k ks cur cx mid r y Hcx Hk Hks IH];
    intros r' Hr'.
  - constructor. lia.
  - econstructor; [done | done | by apply IH].
Qed.

(** A member of a placed row is itself placed, on the same row. *)
Lemma placed_row_elem pos ks cur r y k :
  placed_row pos ks cur r y → k ∈ ks → ∃ cx mid, placed pos k cx mid y.
Proof.
  induction 1 as [|k' ks cur cx mid r y Hcx Hk Hks IH]; intros Hin.
  - by apply elem_of_nil in Hin.
  - apply elem_of_cons in Hin as [->|Hin]; [by eauto | by apply IH].
Qed.

(** Distinct members of a placed row occupy disjoint columns, in order,
    one spacing apart at least. *)
Lemma placed_row_separated pos ks cur r y (i j : nat) ti tj a b :
  placed_row pos ks cur r y →
  ks !! i = Some ti → ks !! j = Some tj → (i < j)%nat →
  a ∈ ids ti → b ∈ ids tj →
  ∃ xa ya xb yb, pos !! a = Some (xa, ya) ∧ pos !! b = Some (xb, yb)
                 ∧ xa + horizontalSpacing ≤ xb.
Proof.
  intros H. revert i j.
  induction H as [|k ks cur cx mid r y Hcx Hk Hks IH]; intros i j Hi Hj Hij Ha Hb.
  - by rewrite lookup_nil in Hi.
  - destruct j as [|j]; [lia|]. simpl in Hj. destruct i as [|i]; simpl in Hi.
    + injection Hi as ->.
      destruct (placed_bounds _ _ _ _ _ Hk a Ha) as (xa & ya & Hpa & _ & Hxa).
      destruct (placed_row_bounds _ _ _ _ _ Hks) as [_ Hrow].
      destruct (Hrow b) as (xb & yb & Hpb & Hxb & _).
      { apply elem_of_flat_map_ids. exists tj. split; [|done].
        by eapply list_elem_of_lookup_2. }
      exists xa, ya, xb, yb. split; [done|]. split; [done|]. lia.
    + apply (IH i j); [done | done | lia | done | done].
Qed.

End placed_facts.

(** ** [layout] on an acyclic tree *)

Section layout_on_trees.
Variable nodes : gmap string TreeNode.

(** The [forEach] loop over the children, given the contract of the
    recursive calls. *)
Lemma layout_children_placed fuel y :
  lays_out nodes fuel →
  ∀ cs ks, Forall2 (unfolds nodes) cs ks →
  ∀ cur st cur' st',
    NoDup (flat_map ids ks) →
    (∀ a, a ∈ flat_map ids ks → a ∉ layoutVisited st) →
    reduce (layout_child nodes (layout nodes fuel) y) cs (cur, st)
      = Some (cur', st') →
    placed_row (positions st') ks cur cur' (y + verticalSpacing)
    ∧ layoutVisited st' = layoutVisited st ∪ list_to_set (flat_map ids ks)
    ∧ (∀ a, a ∉ flat_map ids ks → positions st' !! a = positions st !! a).
Proof.
  intros Hrec cs ks HF.
  induction HF as [|c k cs ks Hck HF IHF]; intros cur st cur' st' Hnd Hfresh; simpl.
  - intros [= <- <-]. split; [constructor; lia|]. split; [set_solver | done].
  - destruct (layout_child nodes _ y (cur, st) c) as [[cur1 st1]|] eqn:Hstep; [|done].
    intros Hrest. simpl in Hnd, Hfresh.
    apply NoDup_app in Hnd as (Hndk & Hdisj & Hndks).
    apply layout_child_inv in Hstep as (w & v & _ & Hw & Hcall).
    unfold lays_out in Hrec.
    eapply Hrec in Hcall as (Hpk & Hvk & Hfk); [|exact Hck|exact Hndk|].
    2:{ simpl. intros a Ha. apply Hfresh. apply elem_of_app. by left. }
    simpl in Hvk, Hfk.
    apply IHF in Hrest as (Hpks & Hvks & Hfks); [|done|].
    2:{ intros a Ha. rewrite Hvk. intros [Hin|Hin]%elem_of_union.
        - eapply Hfresh; [|done]. apply elem_of_app. by right.
        - apply elem_of_list_to_set in Hin. by eapply Hdisj. }
    split; [|split].
    + econstructor; [|eapply placed_frame; [exact Hpk|] | exact Hpks].
      * lia.
      * intros a Ha. apply Hfks. by apply Hdisj.
    + rewrite Hvks, Hvk, list_to_set_app_L. set_solver.
    + intros a Ha. rewrite elem_of_app in Ha.
      rewrite Hfks, Hfk; [done | tauto | tauto].
Qed.

Lemma layout_placed fuel : lays_out nodes fuel.
Proof.
  induction fuel as [|fuel IH]; intros t n x y st r st' Hu Hnd Hfresh; simpl; [done|].
  inversion Hu as [n' node ks Hnode HF]; subst. rewrite Hnode.
  rewrite decide_False by (apply Hfresh; simpl; by left).
  destruct (reduce _ _ _) as [[cur st2]|] eqn:Hred; [|done].
  intros [= <- <-]. simpl in Hnd. apply NoDup_cons in Hnd as [Hn Hnd].
  eapply layout_children_placed in Hred as (Hrow & Hvis & Hframe);
    [|exact IH|exact HF|exact Hnd|].
  2:{ simpl. intros a Ha [->%elem_of_singleton|Hin]%elem_of_union; [done|].
      eapply Hfresh; [|done]. simpl. by right. }
  simpl in Hvis, Hframe. split; [|split].
  - constructor.
    + rewrite Hframe by done. apply lookup_insert_eq.
    + lia.
    + eapply placed_row_weaken; [done | lia].
  - rewrite Hvis. simpl. set_solver.
  - intros a Ha. simpl in Ha. rewrite not_elem_of_cons in Ha. destruct Ha as [Hne Ha].
    rewrite Hframe by done. by apply lookup_insert_ne.
Qed.

(** On an acyclic tree [calculateLayout] returns, and the position map it
    returns places the whole tree, the root at the origin. *)
Lemma calculateLayout_placed rootId t :
  unfolds nodes rootId t → NoDup (ids t) →
  ∃ pos r, calculateLayout rootId nodes = Some pos ∧ placed pos t 0 r 0.
Proof.
  intros Hu Hnd. unfold calculateLayout, calculateLayout_fuel.
  destruct (layout_total nodes (S (size nodes)) rootId 0 0 initialState)
    as [[r st] Hrun].
  { pose proof (unvisited_le_size nodes (layoutVisited initialState)). lia. }
  rewrite Hrun. exists (positions st), r. split; [done|].
  eapply layout_placed in Hrun as (Hp & _); [done | done | done |].
  intros a _. simpl. set_solver.
Qed.

(** *** From the unfolding back to the node mapping *)

Lemma unfolds_lookup n t node :
  unfolds nodes n t → nodes !! n = Some node →
  ∃ ks, t = RNode n ks ∧ Forall2 (unfolds nodes) (children node) ks.
Proof.
  intros Hu Hnode. inversion Hu as [n' node' ks Hnode' HF]; subst.
  rewrite Hnode in Hnode'. injection Hnode' as <-. eauto.
Qed.

Lemma unfolds_child n ks c :
  unfolds nodes n (RNode n ks) → child_of nodes n c →
  ∃ k, k ∈ ks ∧ unfolds nodes c k.
Proof.
  intros Hu (node & Hnode & Hc).
  destruct (unfolds_lookup _ _ _ Hu Hnode) as (ks' & [= <-] & HF).
  apply list_elem_of_lookup_1 in Hc as [i Hi].
  destruct (Forall2_lookup_l _ _ _ _ _ HF Hi) as (k & Hk & Hck).
  exists k. split; [by eapply list_elem_of_lookup_2 | done].
Qed.

Lemma unfolds_root n t : unfolds nodes n t → root t = n.
Proof. by destruct 1. Qed.

(** Everything reachable from the root of an unfolding is one of its ids. *)
Lemma unfolds_reachable_ids n t a :
  unfolds nodes n t → reachable nodes n a → a ∈ ids t.
Proof.
  intros Hu Hr. revert t Hu.
  induction Hr as [n|n c a Hstep Hr IH]; intros t Hu.
  - rewrite <- (unfolds_root _ _ Hu). apply elem_of_ids_root.
  - destruct t as [n' ks]. pose proof (unfolds_root _ _ Hu) as Hroot.
    simpl in Hroot. subst n'.
    destruct (unfolds_child _ _ _ Hu Hstep) as (k & Hk & Hck).
    simpl. right. apply elem_of_flat_map_ids. exists k. split; [done|]. by apply IH.
Qed.

(** Conversely every id of an unfolding is reachable from its root: the ids
    of the unfolding are exactly the reachable nodes. *)
Lemma unfolds_ids_reachable t : ∀ n a,
  unfolds nodes n t → a ∈ ids t → reachable nodes n a.
Proof.
  induction t as [n' ks IH] using rtree_forall_ind. intros n a Hu Ha.
  inversion Hu as [n0 node ks0 Hnode HF]; subst. simpl in Ha.
  apply elem_of_cons in Ha as [->|Ha]; [apply rtc_refl|].
  apply elem_of_flat_map_ids in Ha as (k & Hk & Hak).
  apply list_elem_of_lookup_1 in Hk as [i Hi].
  destruct (Forall2_lookup_r _ _ _ _ _ HF Hi) as (c & Hc & Hck).
  apply rtc_l with c.
  - exists node. split; [done|]. by eapply list_elem_of_lookup_2.
  - rewrite Forall_forall in IH. eapply IH; [|exact Hck|exact Hak].
    by eapply list_elem_of_lookup_2.
Qed.

(** A node reachable from the root of a placed unfolding roots a placed
    unfolding of its own. *)
Lemma placed_reachable pos n t x r y m :
  unfolds nodes n t → placed pos t x r y → reachable nodes n m →
  ∃ tm xm rm ym, unfolds nodes m tm ∧ placed pos tm xm rm ym.
Proof.
  intros Hu Hp Hr. revert t x r y Hu Hp.
  induction Hr as [n|n c m Hstep Hr IH]; intros t x r y Hu Hp; [by eauto 6|].
  destruct t as [n' ks]. pose proof (unfolds_root _ _ Hu) as Hroot.
  simpl in Hroot. subst n'.
  destruct (unfolds_child _ _ _ Hu Hstep) as (k & Hk & Hck).
  inversion Hp as [? ? ? ? ? Hn0 Hxr0 Hrow]; subst.
  destruct (placed_row_elem _ _ _ _ _ _ Hrow Hk) as (cx & mid & Hpk).
  by eapply IH.
Qed.

(** The row of a node of a placed unfolding is its depth below the root. *)
Lemma placed_depth pos n t x r y d m :
  unfolds nodes n t → placed pos t x r y → depth_of nodes d n m →
  ∃ xm, pos !! m = Some (xm, y + Z.of_nat d * verticalSpacing).
Proof.
  intros Hu Hp Hd. revert t x r y Hu Hp.
  induction Hd as [n|d n c m Hstep Hd IH]; intros t x r y Hu Hp.
  - inversion Hp as [? ? ? ? ? Hn Hxr0 Hrow]; subst.
    apply unfolds_root in Hu. simpl in Hu. subst.
    exists x. rewrite Hn. f_equal. f_equal. lia.
  - destruct t as [n' ks]. pose proof (unfolds_root _ _ Hu) as Hroot.
    simpl in Hroot. subst n'.
    destruct (unfolds_child _ _ _ Hu Hstep) as (k & Hk & Hck).
    inversion Hp as [? ? ? ? ? Hn0 Hxr0 Hrow]; subst.
    destruct (placed_row_elem _ _ _ _ _ _ Hrow Hk) as (cx & mid & Hpk).
    destruct (IH _ _ _ _ Hck Hpk) as (xm & Hxm).
    exists xm. rewrite Hxm. f_equal. f_equal. lia.
Qed.

End layout_on_trees.

(** ** The layout theorems *)

(** Checks a proposed unfolding of a concrete node mapping. *)
Ltac check_unfolds :=
  repeat first
    [ eapply unfolds_node; [vm_compute; reflexivity | simpl]
    | match goal with |- Forall2 _ _ _ => constructor end ].

Lemma sampleTree_acyclic : acyclic_tree sampleTree "r".
Proof.
  exists (RNode "r" [RNode "a" [RNode "c" []; RNode "d" []]; RNode "b" []]).
  split.
  - check_unfolds.
  - apply (bool_decide_unpack _). vm_compute. exact I.
Defined.

(** Separation of sibling subtrees in a position map that places an
    unfolding; shared by the statements on sibling subtrees and on the order
    of children. *)
Lemma placed_siblings_separated nodes rootId t pos x r y n node
    (i j : nat) ci cj a b :
  unfolds nodes rootId t → placed pos t x r y →
  reachable nodes rootId n → nodes !! n = Some node →
  children node !! i = Some ci → children node !! j = Some cj → (i < j)%nat →
  reachable nodes ci a → reachable nodes cj b →
  ∃ xa ya xb yb, pos !! a = Some (xa, ya) ∧ pos !! b = Some (xb, yb)
                 ∧ xa + horizontalSpacing ≤ xb.
Proof.
  intros Hu Hp Hn Hnode Hi Hj Hij Ha Hb.
  destruct (placed_reachable _ _ _ _ _ _ _ _ Hu Hp Hn) as (tn & xn & rn & yn & Hun & Hpn).
  destruct (unfolds_lookup _ _ _ _ Hun Hnode) as (ks & -> & HF).
  inversion Hpn as [? ? ? ? ? Hn0 Hxr0 Hrow]; subst.
  destruct (Forall2_lookup_l _ _ _ _ _ HF Hi) as (ti & Hti & Huci).
  destruct (Forall2_lookup_l _ _ _ _ _ HF Hj) as (tj & Htj & Hucj).
  eapply placed_row_separated; [exact Hrow | exact Hti | exact Htj | exact Hij | |].
  - by eapply unfolds_reachable_ids.
  - by eapply unfolds_reachable_ids.
Qed.

(** C1.  On an acyclic tree the layout returns a position map in which, for
    every node reachable from the root and any two of its children [ci]
    before [cj] in the stored order, every node of the subtree of [ci] lies
    strictly left of every node of the subtree of [cj], at least one
    horizontal spacing apart. *)
Theorem layout_sibling_subtrees_disjoint (nodes : gmap string TreeNode) (rootId : string) :
  acyclic_tree nodes rootId →
  ∃ pos, calculateLayout rootId nodes = Some pos ∧
    ∀ n node (i j : nat) ci cj a b,
      reachable nodes rootId n → nodes !! n = Some node →
      children node !! i = Some ci → children node !! j = Some cj → (i < j)%nat →
      reachable nodes ci a → reachable nodes cj b →
      ∃ xa ya xb yb, pos !! a = Some (xa, ya) ∧ pos !! b = Some (xb, yb)
                     ∧ xa < xb ∧ xa + horizontalSpacing ≤ xb.
Proof.
  intros (t & Hu & Hnd).
  destruct (calculateLayout_placed nodes rootId t Hu Hnd) as (pos & r & Hrun & Hp).
  exists pos. split; [done|]. intros n node i j ci cj a b Hn Hnode Hi Hj Hij Ha Hb.
  destruct (placed_siblings_separated _ _ _ _ _ _ _ _ _ _ _ _ _ _ _
              Hu Hp Hn Hnode Hi Hj Hij Ha Hb) as (xa & ya & xb & yb & Hpa & Hpb & Hsep).
  exists xa, ya, xb, yb. unfold horizontalSpacing in *. repeat split; [done | done | lia | lia].
Qed.

Lemma layout_sibling_subtrees_disjoint_witness :
  acyclic_tree sampleTree "r" ∧
  ∃ pos, calculateLayout "r" sampleTree = Some pos ∧
    ∀ n node (i j : nat) ci cj a b,
      reachable sampleTree "r" n → sampleTree !! n = Some node →
      children node !! i = Some ci → children node !! j = Some cj → (i < j)%nat →
      reachable sampleTree ci a → reachable sampleTree cj b →
      ∃ xa ya xb yb, pos !! a = Some (xa, ya) ∧ pos !! b = Some (xb, yb)
                     ∧ xa < xb ∧ xa + horizontalSpacing ≤ xb.
Proof.
  split; [exact sampleTree_acyclic|].
  apply (layout_sibling_subtrees_disjoint sampleTree "r"). exact sampleTree_acyclic.
Defined.

(** C6.  On an acyclic tree the layout gives the root the row 0, every node
    at depth [d] below the root the row [d * verticalSpacing], and every
    child the row of its parent plus [verticalSpacing]. *)
Theorem layout_y_is_depth (nodes : gmap string TreeNode) (rootId : string) :
  acyclic_tree nodes rootId →
  ∃ pos, calculateLayout rootId nodes = Some pos ∧
    (∃ x, pos !! rootId = Some (x, 0)) ∧
    (∀ d n, depth_of nodes d rootId n →
       ∃ x, pos !! n = Some (x, Z.of_nat d * verticalSpacing)) ∧
    (∀ p c, reachable nodes rootId p → child_of nodes p c →
       ∃ xp yp xc yc, pos !! p = Some (xp, yp) ∧ pos !! c = Some (xc, yc)
                      ∧ yc = yp + verticalSpacing).
Proof.
  intros (t & Hu & Hnd).
  destruct (calculateLayout_placed nodes rootId t Hu Hnd) as (pos & r & Hrun & Hp).
  exists pos. split; [done|].
  assert (∀ d n, depth_of nodes d rootId n →
            ∃ x, pos !! n = Some (x, Z.of_nat d * verticalSpacing)) as Hdepth.
  { intros d n Hd.
    destruct (placed_depth _ _ _ _ _ _ _ _ _ Hu Hp Hd) as (x & Hx). by exists x. }
  split; [|split; [exact Hdepth|]].
  - destruct (Hdepth 0%nat rootId) as (x & Hx); [constructor|]. by exists x.
  - intros p c Hrp Hpc. apply rtc_nsteps in Hrp as [d Hd].
    destruct (Hdepth d p Hd) as (xp & Hxp).
    destruct (Hdepth (S d) c) as (xc & Hxc).
    { eapply nsteps_r; [exact Hd | exact Hpc]. }
    exists xp, (Z.of_nat d * verticalSpacing), xc, (Z.of_nat (S d) * verticalSpacing).
    repeat split; [done | done | lia].
Qed.

Lemma layout_y_is_depth_witness :
  acyclic_tree sampleTree "r" ∧
  ∃ pos, calculateLayout "r" sampleTree = Some pos ∧
    (∃ x, pos !! "r" = Some (x, 0)) ∧
    (∀ d n, depth_of sampleTree d "r" n →
       ∃ x, pos !! n = Some (x, Z.of_nat d * verticalSpacing)) ∧
    (∀ p c, reachable sampleTree "r" p → child_of sampleTree p c →
       ∃ xp yp xc yc, pos !! p = Some (xp, yp) ∧ pos !! c = Some (xc, yc)
                      ∧ yc = yp + verticalSpacing).
Proof.
  split; [exact sampleTree_acyclic|].
  apply (layout_y_is_depth sampleTree "r"). exact sampleTree_acyclic.
Defined.

(** C7.  On an acyclic tree the layout places the children of every node
    left to right in their stored order: a child earlier in the [children]
    array gets a strictly smaller [x]. *)
Theorem layout_children_left_to_right (nodes : gmap string TreeNode) (rootId : string) :
  acyclic_tree nodes rootId →
  ∃ pos, calculateLayout rootId nodes = Some pos ∧
    ∀ n node (i j : nat) a b,
      reachable nodes rootId n → nodes !! n = Some node →
      children node !! i = Some a → children node !! j = Some b → (i < j)%nat →
      ∃ xa ya xb yb, pos !! a = Some (xa, ya) ∧ pos !! b = Some (xb, yb) ∧ xa < xb.
Proof.
  intros (t & Hu & Hnd).
  destruct (calculateLayout_placed nodes rootId t Hu Hnd) as (pos & r & Hrun & Hp).
  exists pos. split; [done|]. intros n node i j a b Hn Hnode Hi Hj Hij.
  destruct (placed_siblings_separated nodes rootId t pos 0 r 0 n node i j a b a b)
    as (xa & ya & xb & yb & Hpa & Hpb & Hsep); try done.
  exists xa, ya, xb, yb. unfold horizontalSpacing in *. repeat split; [done | done | lia].
Qed.

Lemma layout_children_left_to_right_witness :
  acyclic_tree sampleTree "r" ∧
  ∃ pos, calculateLayout "r" sampleTree = Some pos ∧
    ∀ n node (i j : nat) a b,
      reachable sampleTree "r" n → sampleTree !! n = Some node →
      children node !! i = Some a → children node !! j = Some b → (i < j)%nat →
      ∃ xa ya xb yb, pos !! a = Some (xa, ya) ∧ pos !! b = Some (xb, yb) ∧ xa < xb.
Proof.
  split; [exact sampleTree_acyclic|].
  apply (layout_children_left_to_right sampleTree "r"). exact sampleTree_acyclic.
Defined.

(** ** Coverage on arbitrary input *)

Lemma reachable_source_exists nodes a n :
  reachable nodes a n → is_Some (nodes !! n) → is_Some (nodes !! a).
Proof.
  intros Hr Hn. destruct Hr as [|a c n (node & Hnode & _) _]; [done | by eexists].
Qed.

(** A set of ids closed under existing children contains every existing
    node reachable from one of its members. *)
Lemma closed_covers_reachable nodes (S : gset string) a n :
  (∀ m c, m ∈ S → child_of nodes m c → is_Some (nodes !! c) → c ∈ S) →
  a ∈ S → reachable nodes a n → is_Some (nodes !! n) → n ∈ S.
Proof.
  intros Hclosed Ha Hr Hn. induction Hr as [a|a c n Hstep Hr IH]; [done|].
  apply IH; [|done]. eapply Hclosed; [exact Ha | exact Hstep |].
  by eapply reachable_source_exists.
Qed.

Lemma calculateLayout_returns nodes rootId :
  ∃ pos, calculateLayout rootId nodes = Some pos.
Proof.
  destruct (layout_total nodes (S (size nodes)) rootId 0 0 initialState)
    as [[r st] Hrun].
  { pose proof (unvisited_le_size nodes (layoutVisited initialState)). lia. }
  exists (positions st). unfold calculateLayout, calculateLayout_fuel. by rewrite Hrun.
Qed.

(** ** The layout on the heap *)

Section heap_facts.
Import TreeViewJs.

(** A fold on the heap against the fold that passes the state [st h]
    alone: step by step they do the same, until the former throws. *)
Lemma reduce_js_spec {S : Type} (st : Heap → S) (I T : Heap → Prop)
    (g : Z → string → Heap → Outcome Z) (f : Z * S → string → option (Z * S))
    (l : list string) :
  (∀ acc c h, c ∈ l → I h →
     match g acc c h with
     | Returned a h' => I h' ∧ f (acc, st h) c = Some (a, st h')
     | Thrown h' => T h'
     | OutOfFuel => f (acc, st h) c = None
     end) →
  ∀ acc h, I h →
     match reduce_js g l acc h with
     | Returned a h' => I h' ∧ reduce f l (acc, st h) = Some (a, st h')
     | Thrown h' => T h'
     | OutOfFuel => reduce f l (acc, st h) = None
     end.
Proof.
  induction l as [|c l IH]; intros Hstep acc h Hh; simpl; [done|].
  pose proof (Hstep acc c h ltac:(left) Hh) as Hc.
  destruct (g acc c h) as [a h1|h1|]; [|done|by rewrite Hc].
  destruct Hc as [Hh1 ->].
  apply IH; [|done]. intros acc' c' h' Hc'. apply Hstep. by right.
Qed.

Variable nodes : gmap string TreeNode.

Lemma child_reaches nodeId node c bad :
  nodes !! nodeId = Some node → c ∈ children node →
  reachable nodes c bad → reachable nodes nodeId bad.
Proof. intros Hnode Hc Hr. eapply rtc_l; [|exact Hr]. by exists node. Qed.

(** [calculateSubtreeWidth] on the heap: it writes to the closure's set
    only, and computes what the state-passing closure computes, unless it
    throws; it throws only at a reference found on the prototype. *)
Lemma calculateSubtreeWidth_js_spec fuel nodeId h :
  tree_nodes h = nodes →
  match calculateSubtreeWidth_js fuel nodeId h with
  | Returned w h' =>
      (tree_nodes h' = nodes
       ∧ positions (heap_state h') = positions (heap_state h)
       ∧ layoutVisited (heap_state h') = layoutVisited (heap_state h))
      ∧ calculateSubtreeWidth_fuel nodes fuel nodeId (visited (heap_state h))
        = Some (w, visited (heap_state h'))
  | Thrown h' =>
      tree_nodes h' = nodes
      ∧ ∃ bad, reachable nodes nodeId bad ∧ names_inherited nodes bad
  | OutOfFuel =>
      calculateSubtreeWidth_fuel nodes fuel nodeId (visited (heap_state h)) = None
  end.
Proof.
  revert nodeId h. induction fuel as [|fuel IH]; intros nodeId h Hh; simpl; [done|].
  rewrite Hh. destruct (nodes !! nodeId) as [node|] eqn:Hnode.
  2:{ destruct (decide (nodeId ∈ prototypeMembers)) as [Hproto|]; [|done].
      destruct (decide (nodeId ∈ visited (heap_state h))); [done|].
      split; [done|]. exists nodeId. split; [apply rtc_refl | done]. }
  destruct (decide (nodeId ∈ visited (heap_state h))); [done|].
  destruct (children node) as [|c cs] eqn:Hcs; [done|].
  apply (reduce_js_spec (λ h, visited (heap_state h))
           (λ h', tree_nodes h' = nodes
                  ∧ positions (heap_state h') = positions (heap_state h)
                  ∧ layoutVisited (heap_state h') = layoutVisited (heap_state h))
           (λ h', tree_nodes h' = nodes
                  ∧ ∃ bad, reachable nodes nodeId bad ∧ names_inherited nodes bad));
    [|done].
  intros acc c' h1 Hc' (Hn1 & Hp1 & Hl1). rewrite <- Hcs in Hc'.
  pose proof (IH c' h1 Hn1) as Hrec.
  destruct (calculateSubtreeWidth_js fuel c' h1) as [w h2|h2|].
  - destruct Hrec as ((Hn2 & Hp2 & Hl2) & ->). split; [|done].
    split; [done|]. split; congruence.
  - destruct Hrec as (Hn2 & bad & Hr & Hbad). split; [done|].
    exists bad. split; [|done]. eapply child_reaches; eauto.
  - by rewrite Hrec.
Qed.

(** [layout] on the heap, likewise. *)
Lemma layout_js_spec fuel nodeId x y h :
  tree_nodes h = nodes →
  match layout_js fuel nodeId x y h with
  | Returned r h' =>
      tree_nodes h' = nodes
      ∧ layout nodes fuel nodeId x y (heap_state h) = Some (r, heap_state h')
  | Thrown h' =>
      tree_nodes h' = nodes
      ∧ ∃ bad, reachable nodes nodeId bad ∧ names_inherited nodes bad
  | OutOfFuel => layout nodes fuel nodeId x y (heap_state h) = None
  end.
Proof.
  revert nodeId x y h.
  induction fuel as [|fuel IH]; intros nodeId x y h Hh; simpl; [done|].
  rewrite Hh. destruct (nodes !! nodeId) as [node|] eqn:Hnode.
  2:{ destruct (decide (nodeId ∈ prototypeMembers)) as [Hproto|]; [|done].
      destruct (decide (nodeId ∈ layoutVisited (heap_state h))); [done|].
      split; [done|]. exists nodeId. split; [apply rtc_refl | done]. }
  destruct (decide (nodeId ∈ layoutVisited (heap_state h))); [done|].
  assert (∀ acc c h1, c ∈ children node → tree_nodes h1 = nodes →
            match layout_child_js (layout_js fuel) y acc c h1 with
            | Returned a h' =>
                tree_nodes h' = nodes
                ∧ layout_child nodes (layout nodes fuel) y (acc, heap_state h1) c
                  = Some (a, heap_state h')
            | Thrown h' =>
                tree_nodes h' = nodes
                ∧ ∃ bad, reachable nodes nodeId bad ∧ names_inherited nodes bad
            | OutOfFuel =>
                layout_child nodes (layout nodes fuel) y (acc, heap_state h1) c = None
            end) as Hstep.
  { intros acc c h1 Hc Hn1. unfold layout_child_js, layout_child, calculateSubtreeWidth.
    rewrite Hn1.
    pose proof (calculateSubtreeWidth_js_spec (S (size nodes)) c h1 Hn1) as Hw.
    destruct (calculateSubtreeWidth_js _ c h1) as [w h2|h2|].
    - destruct Hw as ((Hn2 & Hp2 & Hl2) & ->).
      rewrite <- Hp2, <- Hl2.
      replace (mkLayoutState _ _ _) with (heap_state h2) by by destruct (heap_state h2).
      pose proof (IH c (acc + w * horizontalSpacing / 2 - horizontalSpacing / 2)
                    (y + verticalSpacing) h2 Hn2) as Hrec.
      destruct (layout_js fuel c _ _ h2) as [r h3|h3|]; [done| |done].
      destruct Hrec as (Hn3 & bad & Hr & Hbad). split; [done|].
      exists bad. split; [|done]. eapply child_reaches; eauto.
    - destruct Hw as (Hn2 & bad & Hr & Hbad). split; [done|].
      exists bad. split; [|done]. eapply child_reaches; eauto.
    - by rewrite Hw. }
  pose proof (reduce_js_spec heap_state (λ h', tree_nodes h' = nodes)
           (λ h', tree_nodes h' = nodes
                  ∧ ∃ bad, reachable nodes nodeId bad ∧ names_inherited nodes bad)
           _ _ (children node) Hstep x (enter nodeId x y h) Hh) as Hfold.
  change (heap_state (enter nodeId x y h))
    with (mkLayoutState (<[nodeId := (x, y)]> (positions (heap_state h)))
            (visited (heap_state h)) ({[nodeId]} ∪ layoutVisited (heap_state h)))
    in Hfold.
  destruct (reduce_js _ _ _ _) as [cur h1|h1|]; [|done|by rewrite Hfold].
  destruct Hfold as [Hn1 ->]. done.
Qed.

(** One invocation on the heap: it ends, whatever the mapping; it leaves
    the mapping as it found it; when it returns, it returns the position
    map of the state-passing [calculateLayout]; and it throws only when a
    reference reachable from the root id is found on the prototype. *)
Lemma calculateLayout_js_spec rootId h :
  tree_nodes h = nodes →
  match calculateLayout_js rootId h with
  | Returned pos h' => tree_nodes h' = nodes ∧ calculateLayout rootId nodes = Some pos
  | Thrown h' =>
      tree_nodes h' = nodes
      ∧ ∃ bad, reachable nodes rootId bad ∧ names_inherited nodes bad
  | OutOfFuel => False
  end.
Proof.
  intros Hh. unfold calculateLayout_js, calculateLayout, calculateLayout_fuel.
  cbn [tree_nodes]. rewrite Hh.
  pose proof (layout_js_spec (S (size nodes)) rootId 0 0 (mkHeap nodes initialState)
                eq_refl) as Hrun.
  cbn [heap_state] in Hrun.
  destruct (layout_js _ rootId 0 0 _) as [r h1|h1|]; [|done|].
  - destruct Hrun as [Hn1 Hrun]. split; [done|]. by rewrite Hrun.
  - destruct (layout_total nodes (S (size nodes)) rootId 0 0 initialState) as [? Hsome].
    { pose proof (unvisited_le_size nodes (layoutVisited initialState)). lia. }
    congruence.
Qed.

(** What a fold that returns has established, given what each step that
    returns establishes. *)
Lemma reduce_js_returned (P : Heap → Prop) (Q : string → Prop)
    (g : Z → string → Heap → Outcome Z) (l : list string) :
  (∀ acc c h a h', c ∈ l → P h → g acc c h = Returned a h' → P h' ∧ Q c) →
  ∀ acc h a h', P h → reduce_js g l acc h = Returned a h' →
    P h' ∧ ∀ c, c ∈ l → Q c.
Proof.
  induction l as [|c l IH]; intros Hstep acc h a h' Hh; simpl.
  { intros [= <- <-]. split; [done|]. intros c Hc. by apply elem_of_nil in Hc. }
  destruct (g acc c h) as [a1 h1|h1|] eqn:Hg; [|done|done]. intros Hred.
  destruct (Hstep acc c h a1 h1 ltac:(left) Hh Hg) as [Hh1 Hc].
  eapply IH in Hred as [Hh' Hl]; [| |exact Hh1].
  - split; [done|]. intros c' [->|Hc']%elem_of_cons; auto.
  - intros acc' c' h2 a2 h2' Hc'. apply Hstep. by right.
Qed.

(** A call of [calculateSubtreeWidth] that returns was not given an id
    found on the prototype, and has marked only keys of the mapping. *)
Lemma calculateSubtreeWidth_js_returned fuel nodeId h w h' :
  tree_nodes h = nodes → visited (heap_state h) ⊆ dom nodes →
  calculateSubtreeWidth_js fuel nodeId h = Returned w h' →
  visited (heap_state h') ⊆ dom nodes ∧ ¬ names_inherited nodes nodeId.
Proof.
  revert nodeId h w h'.
  induction fuel as [|fuel IH]; intros nodeId h w h' Hh Hvis; simpl; [done|].
  rewrite Hh. destruct (nodes !! nodeId) as [node|] eqn:Hnode.
  2:{ destruct (decide (nodeId ∈ prototypeMembers)) as [Hproto|Hproto].
      - destruct (decide (nodeId ∈ visited (heap_state h))) as [Hin|]; [|done].
        apply Hvis, elem_of_dom in Hin as [? ?]. congruence.
      - intros [= <- <-]. split; [done|]. by intros [_ ?]. }
  assert (¬ names_inherited nodes nodeId) as Hown by (intros [? _]; congruence).
  assert (visited (heap_state (addVisited nodeId h)) ⊆ dom nodes) as Hvis1.
  { simpl. apply union_subseteq. split; [|done].
    apply singleton_subseteq_l, elem_of_dom. eauto. }
  destruct (decide (nodeId ∈ visited (heap_state h))).
  { by intros [= <- <-]. }
  destruct (children node) as [|c cs].
  { by intros [= <- <-]. }
  intros Hred.
  eapply (reduce_js_returned
            (λ h, tree_nodes h = nodes ∧ visited (heap_state h) ⊆ dom nodes)
            (λ _, True)) in Hred as [[_ Hvis'] _]; [done| |done].
  intros acc c' h1 a h2 _ [Hn1 Hv1].
  pose proof (calculateSubtreeWidth_js_spec fuel c' h1 Hn1) as Hspec.
  destruct (calculateSubtreeWidth_js fuel c' h1) as [w1 h3|h3|] eqn:Hw; [|done|done].
  intros [= <- <-]. destruct Hspec as [(Hn3 & _) _].
  by apply IH in Hw as [? _].
Qed.

(** A call of [layout] that returns has met no reference found on the
    prototype: neither its own id nor a child reference of any node it has
    visited. *)
Lemma layout_js_returned fuel nodeId x y h r h' :
  tree_nodes h = nodes →
  visited (heap_state h) ⊆ dom nodes → layoutVisited (heap_state h) ⊆ dom nodes →
  layout_js fuel nodeId x y h = Returned r h' →
  (visited (heap_state h') ⊆ dom nodes ∧ layoutVisited (heap_state h') ⊆ dom nodes)
  ∧ ¬ names_inherited nodes nodeId
  ∧ (∀ m c, m ∈ layoutVisited (heap_state h') → m ∉ layoutVisited (heap_state h) →
            child_of nodes m c → ¬ names_inherited nodes c).
Proof.
  revert nodeId x y h r h'.
  induction fuel as [|fuel IH]; intros nodeId x y h r h' Hh Hvis Hlv; simpl; [done|].
  rewrite Hh. destruct (nodes !! nodeId) as [node|] eqn:Hnode.
  2:{ destruct (decide (nodeId ∈ prototypeMembers)) as [Hproto|Hproto].
      - destruct (decide (nodeId ∈ layoutVisited (heap_state h))) as [Hin|]; [|done].
        apply Hlv, elem_of_dom in Hin as [? ?]. congruence.
      - intros [= <- <-]. split; [done|]. split; [by intros [_ ?] | done]. }
  assert (¬ names_inherited nodes nodeId) as Hown by (intros [? _]; congruence).
  destruct (decide (nodeId ∈ layoutVisited (heap_state h))) as [Hin|Hnin].
  { by intros [= <- <-]. }
  destruct (reduce_js _ _ _ _) as [cur h1|h1|] eqn:Hred; [|done|done].
  intros [= <- <-].
  eapply (reduce_js_returned
            (λ h1, tree_nodes h1 = nodes
                   ∧ (visited (heap_state h1) ⊆ dom nodes
                      ∧ layoutVisited (heap_state h1) ⊆ dom nodes)
                   ∧ ∀ m c, m ∈ layoutVisited (heap_state h1) →
                            m ∉ {[nodeId]} ∪ layoutVisited (heap_state h) →
                            child_of nodes m c → ¬ names_inherited nodes c)
            (λ c, ¬ names_inherited nodes c)) in Hred
    as [(_ & Hdom' & Hrest) Hchildren].
  - split; [done|]. split; [done|]. intros m c Hm Hm0 Hmc.
    destruct (decide (m = nodeId)) as [->|Hne].
    + destruct Hmc as (node' & Hnode' & Hc). apply Hchildren. congruence.
    + eapply Hrest; [exact Hm | set_solver | exact Hmc].
  - intros acc c h2 a h3 _ (Hn2 & [Hv2 Hl2] & Hrest2). unfold layout_child_js.
    rewrite Hn2.
    pose proof (calculateSubtreeWidth_js_spec (S (size nodes)) c h2 Hn2) as Hspec.
    destruct (calculateSubtreeWidth_js _ c h2) as [w h4|h4|] eqn:Hw; [|done|done].
    destruct Hspec as [(Hn4 & _ & Hl4) _].
    apply calculateSubtreeWidth_js_returned in Hw as [Hv4 Hc]; [|done|done].
    intros Hrec.
    match type of Hrec with
    | layout_js _ _ ?cx ?cy _ = _ =>
        pose proof (layout_js_spec fuel c cx cy h4 Hn4) as Hspec
    end.
    rewrite Hrec in Hspec. destruct Hspec as [Hn3 _].
    apply IH in Hrec as (Hdom3 & _ & Hrest3); [|done|done|by rewrite Hl4].
    split; [|done]. split; [done|]. split; [done|].
    intros m c' Hm Hm0.
    destruct (decide (m ∈ layoutVisited (heap_state h2))) as [Hold|Hnew].
    + by apply Hrest2.
    + apply Hrest3; [done | by rewrite Hl4].
  - split; [done|]. split.
    + split; [done|]. simpl. apply union_subseteq. split; [|done].
      apply singleton_subseteq_l, elem_of_dom. eauto.
    + simpl. intros m c Hm Hm0. set_solver.
Qed.

(** One invocation throws exactly when some reference reachable from the
    root id is found on the prototype. *)
Lemma calculateLayout_js_throws rootId h :
  tree_nodes h = nodes →
  throws (calculateLayout_js rootId h)
  ↔ ∃ bad, reachable nodes rootId bad ∧ names_inherited nodes bad.
Proof.
  intros Hh. pose proof (calculateLayout_js_spec rootId h Hh) as Hspec. split.
  { intros [h' Hrun]. rewrite Hrun in Hspec. apply Hspec. }
  intros (bad & Hr & Hbad).
  destruct (calculateLayout_js rootId h) as [pos h'|h'|] eqn:Hrun;
    [exfalso|by eexists|done].
  clear Hspec. unfold calculateLayout_js in Hrun. cbn [tree_nodes] in Hrun.
  rewrite Hh in Hrun.
  destruct (layout_js _ rootId 0 0 _) as [r h1|h1|] eqn:Hlay; [|done|done].
  pose proof (layout_js_spec (S (size nodes)) rootId 0 0 (mkHeap nodes initialState)
                eq_refl) as Hspec.
  rewrite Hlay in Hspec. destruct Hspec as [_ Hmodel]. cbn [heap_state] in Hmodel.
  apply layout_walked in Hmodel as ((_ & Hclosed & _) & Hroot & _).
  apply layout_js_returned in Hlay as (_ & Hown & Hrest); [|done|simpl; set_solver..].
  apply rtc_inv_r in Hr as [->|(m & Hr & Hstep)]; [done|].
  apply (Hrest m bad); [|simpl; set_solver|done|done].
  assert (is_Some (nodes !! m)) as Hm by (destruct Hstep as (? & ? & _); eauto).
  eapply closed_covers_reachable; [|apply Hroot|exact Hr|exact Hm].
  - intros m' c Hm'. apply Hclosed; [done | simpl; set_solver].
  - by eapply reachable_source_exists.
Qed.

End heap_facts.

(** A mapping in which neither the root id nor any child reference is found
    on the prototype keeps to the key convention. *)
Lemma own_keys_only_intro nodes rootId :
  ¬ names_inherited nodes rootId →
  map_Forall (λ _ node, Forall (λ c, ¬ names_inherited nodes c) (children node)) nodes →
  own_keys_only nodes rootId.
Proof.
  intros Hroot Hall bad Hr.
  apply rtc_inv_r in Hr as [->|(m & _ & node & Hm & Hc)]; [done|].
  apply Hall in Hm. by eapply Forall_forall in Hm.
Qed.

Lemma cyclicTree_own_keys_only : own_keys_only cyclicTree "r".
Proof.
  apply own_keys_only_intro; apply (bool_decide_unpack _); vm_compute; exact I.
Qed.

(** ** The claims on the heap *)

Section layout_on_heap.
Import TreeViewJs.

(** C2.  The failing input: the root [r] lists the child id [constructor],
    which is absent from the node mapping.  The lookup finds the member
    every plain object inherits, the guard [!node] lets it pass, and
    reading its [children] throws: the invocation ends with a [TypeError],
    no position map is returned. *)
Theorem layout_throws_on_inherited_name :
  child_of inheritedNameTree "r" "constructor"
  ∧ inheritedNameTree !! "constructor" = None
  ∧ throws (calculateLayout_js "r" (mkHeap inheritedNameTree initialState))
  ∧ ∀ pos, ¬ returns (calculateLayout_js "r" (mkHeap inheritedNameTree initialState)) pos.
Proof.
  split; [|split; [done|split]].
  - eexists. split; [reflexivity|]. simpl. set_solver.
  - eexists. vm_compute. reflexivity.
  - intros pos [h Hrun]. vm_compute in Hrun. discriminate.
Qed.

(** C3.  An invocation on the heap, whatever an earlier one has left there:
    it ends, by returning or by throwing; the heap it ends in holds the node
    mapping it was given, unchanged; what it does depends on the root id and
    the node mapping alone, not on anything else in the heap; and so a
    second invocation, run on the heap the first one has left, returns the
    same position map. *)
Theorem calculateLayout_reads_only (rootId : string) (h : Heap) :
  (∃ h', ends_in (calculateLayout_js rootId h) h')
  ∧ (∀ h', ends_in (calculateLayout_js rootId h) h' → tree_nodes h' = tree_nodes h)
  ∧ (∀ h2, tree_nodes h2 = tree_nodes h →
       calculateLayout_js rootId h2 = calculateLayout_js rootId h)
  ∧ (∀ pos h', calculateLayout_js rootId h = Returned pos h' →
       ∃ h'', calculateLayout_js rootId h' = Returned pos h'' ∧
              tree_nodes h'' = tree_nodes h).
Proof.
  pose proof (calculateLayout_js_spec (tree_nodes h) rootId h eq_refl) as Hspec.
  assert (∀ h2, tree_nodes h2 = tree_nodes h →
            calculateLayout_js rootId h2 = calculateLayout_js rootId h) as Hsame.
  { intros h2 Hh2. unfold calculateLayout_js. cbn [tree_nodes]. by rewrite Hh2. }
  assert (∀ h', ends_in (calculateLayout_js rootId h) h' → tree_nodes h' = tree_nodes h)
    as Hframe.
  { intros h' [[pos Hrun]|Hrun]; rewrite Hrun in Hspec; apply Hspec. }
  split; [|split; [done|split; [done|]]].
  - destruct (calculateLayout_js rootId h) as [pos h'|h'|]; [| |done].
    + exists h'. left. by exists pos.
    + exists h'. by right.
  - intros pos h' Hrun. exists h'.
    assert (tree_nodes h' = tree_nodes h) as Hh'.
    { apply Hframe. left. by exists pos. }
    split; [|done]. by rewrite (Hsame h' Hh').
Qed.

Lemma calculateLayout_reads_only_witness :
  calculateLayout_js "r" usedHeap = calculateLayout_js "r" (mkHeap cyclicTree initialState)
  ∧ ∃ h', ends_in (calculateLayout_js "r" usedHeap) h' ∧ tree_nodes h' = cyclicTree.
Proof.
  destruct (calculateLayout_reads_only "r" usedHeap) as ([h' Hend] & Hframe & Hsame & _).
  split.
  - symmetry. apply Hsame. reflexivity.
  - exists h'. split; [exact Hend|]. apply Hframe. exact Hend.
Defined.

End layout_on_heap.

(** ** The shape of the tree *)

Section layout_shape.
Variables nodes nodes' : gmap string TreeNode.
Hypothesis Hshape : same_shape nodes nodes'.

Lemma same_shape_size : size nodes = size nodes'.
Proof.
  rewrite <- !(size_dom (D := gset string)). f_equal. apply set_eq. intros i.
  rewrite !elem_of_dom. specialize (Hshape i).
  destruct (nodes !! i), (nodes' !! i); simpl in Hshape;
    first [done | split; by eexists].
Qed.

Lemma calculateSubtreeWidth_fuel_same_shape fuel nodeId vis :
  calculateSubtreeWidth_fuel nodes fuel nodeId vis
  = calculateSubtreeWidth_fuel nodes' fuel nodeId vis.
Proof.
  revert nodeId vis. induction fuel as [|fuel IH]; intros nodeId vis; simpl; [done|].
  pose proof (Hshape nodeId) as Hid.
  destruct (nodes !! nodeId) as [node|], (nodes' !! nodeId) as [node'|];
    simpl in Hid; try done.
  injection Hid as Hchildren. rewrite Hchildren.
  destruct (decide (nodeId ∈ vis)); [done|].
  destruct (children node') as [|c cs]; [done|].
  apply reduce_ext. intros [s v] a. by rewrite IH.
Qed.

Lemma layout_same_shape fuel nodeId x y st :
  layout nodes fuel nodeId x y st = layout nodes' fuel nodeId x y st.
Proof.
  revert nodeId x y st. induction fuel as [|fuel IH]; intros nodeId x y st; simpl; [done|].
  pose proof (Hshape nodeId) as Hid.
  destruct (nodes !! nodeId) as [node|], (nodes' !! nodeId) as [node'|];
    simpl in Hid; try done.
  injection Hid as Hchildren. rewrite Hchildren.
  destruct (decide (nodeId ∈ layoutVisited st)); [done|].
  erewrite reduce_ext; [done|].
  intros [cur s] c. unfold layout_child, calculateSubtreeWidth.
  rewrite same_shape_size, calculateSubtreeWidth_fuel_same_shape.
  destruct (calculateSubtreeWidth_fuel nodes' _ c (visited s)) as [[w v]|]; [|done].
  apply IH.
Qed.

(** The layout depends on the shape of the tree only. *)
Lemma calculateLayout_same_shape rootId :
  calculateLayout rootId nodes = calculateLayout rootId nodes'.
Proof.
  unfold calculateLayout, calculateLayout_fuel.
  by rewrite same_shape_size, layout_same_shape.
Qed.

End layout_shape.

Section heap_shape.
Import TreeViewJs.
Variables nodes nodes' : gmap string TreeNode.
Hypothesis Hshape : same_shape nodes nodes'.

Lemma same_shape_child_of p c : child_of nodes p c → child_of nodes' p c.
Proof.
  intros (node & Hp & Hc). pose proof (Hshape p) as Hid. rewrite Hp in Hid.
  destruct (nodes' !! p) as [node'|] eqn:Hp'; [|done].
  injection Hid as Hchildren. exists node'. split; [done|]. by rewrite <- Hchildren.
Qed.

Lemma same_shape_inherited rootId :
  (∃ bad, reachable nodes rootId bad ∧ names_inherited nodes bad) →
  ∃ bad, reachable nodes' rootId bad ∧ names_inherited nodes' bad.
Proof.
  intros (bad & Hr & Hnone & Hproto). exists bad. split; [|split; [|done]].
  - eapply rtc_subrel; [|exact Hr]. intros p c. apply same_shape_child_of.
  - pose proof (Hshape bad) as Hid. rewrite Hnone in Hid.
    by destruct (nodes' !! bad).
Qed.

End heap_shape.

Lemma same_shape_sym nodes nodes' : same_shape nodes nodes' → same_shape nodes' nodes.
Proof. intros Hshape nodeId. by rewrite Hshape. Qed.

(** ** Subtree widths *)

Section width_on_trees.
Variable nodes : gmap string TreeNode.

(** The fold over the children, given that the recursive calls return
    leaf counts on unvisited subtrees. *)
Lemma width_children_leaves fuel :
  (∀ t n vis w vis',
     unfolds nodes n t → NoDup (ids t) → (∀ a, a ∈ ids t → a ∉ vis) →
     calculateSubtreeWidth_fuel nodes fuel n vis = Some (w, vis') →
     w = leaves t ∧ vis' = vis ∪ list_to_set (ids t)) →
  ∀ cs ks, Forall2 (unfolds nodes) cs ks →
  ∀ sum vis sum' vis',
    NoDup (flat_map ids ks) → (∀ a, a ∈ flat_map ids ks → a ∉ vis) →
    reduce (λ '(sum, visited) childId,
              match calculateSubtreeWidth_fuel nodes fuel childId visited with
              | Some (w, visited) => Some (sum + w, visited)
              | None => None
              end) cs (sum, vis) = Some (sum', vis') →
    sum' = sum + fold_right (λ k acc, leaves k + acc) 0 ks
    ∧ vis' = vis ∪ list_to_set (flat_map ids ks).
Proof.
  intros Hrec cs ks HF.
  induction HF as [|c k cs ks Hck HF IHF]; intros sum vis sum' vis' Hnd Hfresh; simpl.
  - intros [= <- <-]. split; [lia | set_solver].
  - destruct (calculateSubtreeWidth_fuel nodes fuel c vis) as [[w v]|] eqn:Hw; [|done].
    intros Hrest. apply NoDup_app in Hnd as (Hndk & Hdisj & Hndks).
    eapply Hrec in Hw as [Hw Hv]; [|exact Hck|exact Hndk|].
    2:{ intros a Ha. apply Hfresh. apply elem_of_app. by left. }
    subst w v.
    apply IHF in Hrest as [-> ->]; [|done|].
    2:{ intros a Ha [Hin|Hin]%elem_of_union.
        - eapply Hfresh; [|done]. apply elem_of_app. by right.
        - apply elem_of_list_to_set in Hin. by eapply Hdisj. }
    split; [lia|]. rewrite list_to_set_app_L. set_solver.
Qed.

(** Started on a subtree no id of which is in the visited set, the width
    computation returns the number of leaves of the subtree and marks
    exactly its ids. *)
Lemma calculateSubtreeWidth_fuel_leaves fuel t n vis w vis' :
  unfolds nodes n t → NoDup (ids t) → (∀ a, a ∈ ids t → a ∉ vis) →
  calculateSubtreeWidth_fuel nodes fuel n vis = Some (w, vis') →
  w = leaves t ∧ vis' = vis ∪ list_to_set (ids t).
Proof.
  revert t n vis w vis'.
  induction fuel as [|fuel IH]; intros t n vis w vis' Hu Hnd Hfresh; simpl; [done|].
  inversion Hu as [n' node ks Hnode HF]; subst. rewrite Hnode.
  rewrite decide_False by (apply Hfresh; simpl; by left).
  simpl in Hnd. apply NoDup_cons in Hnd as [Hn Hnd].
  destruct (children node) as [|c cs] eqn:Hcs.
  { apply Forall2_nil_inv_l in HF as ->. intros [= <- <-]. simpl.
    split; [done | set_solver]. }
  destruct ks as [|k ks]; [by apply Forall2_nil_inv_r in HF|].
  intros Hred.
  eapply width_children_leaves in Hred as [-> ->]; [|exact IH|exact HF|exact Hnd|].
  2:{ intros a Ha [->%elem_of_singleton|Hin]%elem_of_union; [done|].
      eapply Hfresh; [|done]. simpl. by right. }
  split; [simpl; lia|]. simpl. set_solver.
Qed.

Lemma calculateSubtreeWidth_leaves t n vis :
  unfolds nodes n t → NoDup (ids t) → (∀ a, a ∈ ids t → a ∉ vis) →
  calculateSubtreeWidth nodes n vis = Some (leaves t, vis ∪ list_to_set (ids t)).
Proof.
  intros Hu Hnd Hfresh.
  destruct (calculateSubtreeWidth_returns nodes n vis) as (w & vis' & Hw & _).
  rewrite Hw.
  by destruct (calculateSubtreeWidth_fuel_leaves _ _ _ _ _ _ Hu Hnd Hfresh Hw) as [-> ->].
Qed.

End width_on_trees.

Lemma chainTree_acyclic : acyclic_tree chainTree "r".
Proof.
  exists (RNode "r" [RNode "a" [RNode "b" [RNode "c" []; RNode "d" []]]]).
  split; [check_unfolds | apply (bool_decide_unpack _); vm_compute; exact I].
Qed.

(** C4 (the code departs from the claim).  On the acyclic [chainTree] the
    node [b] has two leaves below it, and a width computation started from
    an empty visited set returns 2 for it.  During the layout pass the
    closure's visited set is never emptied between consultations: the width
    of [a] is consulted first (2, correct) and leaves [a], [b], [c], [d]
    marked, so the width consulted for [b] when [a] lays out its children is
    1.  The position map shows it: [b] is given the [x] of [a]. *)
Theorem width_consulted_for_inner_node_is_stale :
  acyclic_tree chainTree "r"
  ∧ unfolds chainTree "b" (RNode "b" [RNode "c" []; RNode "d" []])
  ∧ leaves (RNode "b" [RNode "c" []; RNode "d" []]) = 2
  ∧ calculateSubtreeWidth chainTree "b" ∅ = Some (2, list_to_set ["b"; "c"; "d"])
  ∧ calculateSubtreeWidth chainTree "a" (visited initialState)
    = Some (2, list_to_set ["a"; "b"; "c"; "d"])
  ∧ calculateSubtreeWidth chainTree "b" (list_to_set ["a"; "b"; "c"; "d"])
    = Some (1, list_to_set ["a"; "b"; "c"; "d"])
  ∧ calculateLayout "r" chainTree
    = Some (list_to_map [("r", (0, 0)); ("a", (125, 120)); ("b", (125, 240));
                         ("c", (125, 360)); ("d", (375, 360))]).
Proof.
  split; [exact chainTree_acyclic|]. split; [check_unfolds|].
  repeat split; vm_compute; reflexivity.
Qed.

(** ** Centring *)

Lemma forkTree_acyclic : acyclic_tree forkTree "r".
Proof.
  exists (RNode "r" [RNode "p" [RNode "a" []; RNode "b" []]]).
  split; [check_unfolds | apply (bool_decide_unpack _); vm_compute; exact I].
Qed.

(** What the code does instead of centring: a node never lies right of any
    node of its subtree, so it sits at the left end of its children's extent
    and is off centre as soon as it has two children. *)
Lemma layout_parent_left_of_subtree (nodes : gmap string TreeNode) (rootId : string) :
  acyclic_tree nodes rootId →
  ∃ pos, calculateLayout rootId nodes = Some pos ∧
    ∀ n m, reachable nodes rootId n → reachable nodes n m →
      ∃ xn yn xm ym, pos !! n = Some (xn, yn) ∧ pos !! m = Some (xm, ym) ∧ xn ≤ xm.
Proof.
  intros (t & Hu & Hnd).
  destruct (calculateLayout_placed nodes rootId t Hu Hnd) as (pos & r & Hrun & Hp).
  exists pos. split; [done|]. intros n m Hn Hm.
  destruct (placed_reachable _ _ _ _ _ _ _ _ Hu Hp Hn) as (tn & xn & rn & yn & Hun & Hpn).
  pose proof (unfolds_reachable_ids _ _ _ _ Hun Hm) as Hin.
  destruct (placed_bounds _ _ _ _ _ Hpn m Hin) as (xm & ym & Hpm & Hle & _).
  inversion Hpn as [? ? ? ? ? Hn0 Hxr0 Hrow]; subst.
  apply unfolds_root in Hun. simpl in Hun. subst. by exists xn, yn, xm, ym.
Qed.

(** C5 (the code departs from the claim).  On the acyclic [forkTree] the
    node [p] has the children [a] and [b], placed at [x = 125] and
    [x = 375]; the centre of their extent is 250, yet [p] is placed at
    [x = 125], straight above its first child.  The root likewise sits at 0,
    left of its only child. *)
Theorem parent_not_centred_over_children :
  acyclic_tree forkTree "r"
  ∧ child_of forkTree "p" "a" ∧ child_of forkTree "p" "b"
  ∧ calculateLayout "r" forkTree
  = Some (list_to_map [("r", (0, 0)); ("p", (125, 120));
                       ("a", (125, 240)); ("b", (375, 240))])
  ∧ (125 + 375) / 2 ≠ 125.
Proof.
  split; [exact forkTree_acyclic|].
  split; [eexists; split; [reflexivity | simpl; set_solver]|].
  split; [eexists; split; [reflexivity | simpl; set_solver]|].
  split; [vm_compute; reflexivity | by vm_compute].
Qed.

(** ** The editable node *)

Section editable_node.
Import EditableNode TruncateSpec.

Lemma length_append (s1 s2 : string) :
  String.length (s1 +:+ s2) = (String.length s1 + String.length s2)%nat.
Proof. induction s1 as [|c s1 IH]; simpl; [done | by rewrite IH]. Qed.

Lemma length_substring_prefix (n : nat) (s : string) :
  (n ≤ String.length s)%nat → String.length (String.substring 0 n s) = n.
Proof.
  revert s. induction n as [|n IH]; intros [|c s]; simpl; try done; try lia.
  intros Hle. rewrite IH; [done | lia].
Qed.

Lemma substring_prefix (n : Z) (s : string) :
  0 ≤ n → n ≤ Z.of_nat (String.length s) →
  substring 0 n s = String.substring 0 (Z.to_nat n) s.
Proof.
  intros H0 Hn. unfold substring.
  replace (Z.min (Z.max 0 0) (Z.of_nat (String.length s))) with 0 by lia.
  replace (Z.min (Z.max n 0) (Z.of_nat (String.length s))) with n by lia.
  replace (Z.min 0 n) with 0 by lia. replace (Z.max 0 n - 0) with n by lia. done.
Qed.

(** C8, refuted as stated: with a supplied [truncateLength] of 0 the limit
    in force is 150, not 0, and a one-character text comes back unchanged
    instead of as the bare suffix. *)
Lemma truncateText_zero_limit_counterexample :
  ¬ truncates_at (limit_as_claimed (mkNodeData "" (Some 0))) (mkNodeData "" (Some 0)) "a".
Proof.
  intros (_ & Hlong & _). vm_compute in Hlong.
  specialize (Hlong eq_refl). discriminate.
Qed.

(** C8, amended.  With the limit [truncateLength || 150] (the supplied value
    unless it is 0 or absent, else 150), when that limit is not negative:
    a text no longer than the limit is returned unchanged, a longer one
    becomes its first [limit] characters followed by the three-character
    suffix, of total length [limit + 3], so the output is never longer
    than [limit + 3]. *)
Theorem truncateText_spec (data : NodeData) (text : string) :
  0 ≤ maxLength data →
  truncates_at (maxLength data) data text
  ∧ (maxLength data < Z.of_nat (String.length text) →
     Z.of_nat (String.length (truncateText data text)) = maxLength data + 3).
Proof.
  intros Hpos. unfold truncates_at, truncateText.
  destruct (decide (Z.of_nat (String.length text) ≤ maxLength data)) as [Hle|Hgt].
  - repeat split; intros; try done; lia.
  - assert (Z.of_nat (String.length
              (String.substring 0 (Z.to_nat (maxLength data)) text +:+ "..."))
            = maxLength data + 3) as Hlen.
    { rewrite length_append, length_substring_prefix by lia. simpl. lia. }
    rewrite substring_prefix by lia. repeat split; intros; try done; lia.
Qed.

(** A negative limit is outside the amended statement: [substring] clamps
    it to 0 and the bare suffix is longer than [limit + 3]. *)
Example truncateText_negative_limit :
  truncateText (mkNodeData "" (Some (-5))) "a" = "...".
Proof. reflexivity. Qed.

Lemma truncateText_spec_witness :
  0 ≤ maxLength (mkNodeData "" (Some 4))
  ∧ truncateText (mkNodeData "" (Some 4)) "branching" = "bran..."
  ∧ truncateText (mkNodeData "" (Some 0)) "branching" = "branching".
Proof.
  split; [by vm_compute|]. split.
  - destruct (truncateText_spec (mkNodeData "" (Some 4)) "branching")
      as [(_ & Hlong & _) _]; [by vm_compute|].
    rewrite Hlong; [reflexivity | by vm_compute].
  - destruct (truncateText_spec (mkNodeData "" (Some 0)) "branching")
      as [(Hshort & _ & _) _]; [by vm_compute|].
    apply Hshort. by vm_compute.
Defined.



(** The comparison is against the stored text as it is: a stored text that
    itself ends in white space is reported as edited even when the edit text
    is that very text. *)
Example handleSave_stored_text_with_trailing_space :
  fst (handleSave "n1" (mkNodeData "Once " None) (mkEditorState true "Once "))
  = [onEdit "n1" "Once "].
Proof. reflexivity. Qed.

End editable_node.

(** ** The settings store *)

Section settings_store.
Import SettingsStore.
Context {Preferences Workspace GenerationSettings Value : Type}.
Implicit Types (target source updates : gmap string Value).
Implicit Types (state : @SettingsState Preferences Workspace GenerationSettings Value).

Lemma Object_assign_lookup target source k :
  Object_assign target source !! k
  = match source !! k with
    | Some v => Some v
    | None => target !! k
    end.
Proof.
  unfold Object_assign. rewrite lookup_union.
  destruct (source !! k), (target !! k); done.
Qed.

(** C10.  [updateModelConfig] leaves the whole state, the [modelConfigs]
    mapping included, unchanged when no configuration is stored under the
    name.  When one is, the entry becomes the old configuration with the
    updates merged in (a property takes its value from the updates when
    they have it and keeps its old value otherwise), every other entry of
    [modelConfigs] is unchanged, and so are the preferences, the workspace
    and the generation settings. *)
Theorem updateModelConfig_frame (name : string) (updates : gmap string Value)
    (state : @SettingsState Preferences Workspace GenerationSettings Value) :
  (modelConfigs state !! name = None →
     updateModelConfig name updates state = state)
  ∧ (∀ config, modelConfigs state !! name = Some config →
       modelConfigs (updateModelConfig name updates state) !! name
         = Some (Object_assign config updates)
       ∧ (∀ k, Object_assign config updates !! k
               = match updates !! k with
                 | Some v => Some v
                 | None => config !! k
                 end))
  ∧ (∀ other, other ≠ name →
       modelConfigs (updateModelConfig name updates state) !! other
       = modelConfigs state !! other)
  ∧ dom (modelConfigs (updateModelConfig name updates state))
    = dom (modelConfigs state)
  ∧ preferences (updateModelConfig name updates state) = preferences state
  ∧ workspace (updateModelConfig name updates state) = workspace state
  ∧ generationSettings (updateModelConfig name updates state)
    = generationSettings state.
Proof.
  unfold updateModelConfig.
  destruct (modelConfigs state !! name) as [config|] eqn:Hname; simpl.
  - split; [done|]. split; [|split; [|split; [|done]]].
    + intros ? [= <-]. split; [by rewrite lookup_insert_eq|].
      apply Object_assign_lookup.
    + intros other Hne. by rewrite lookup_insert_ne.
    + rewrite dom_insert_L. assert (name ∈ dom (modelConfigs state)).
      { apply elem_of_dom. by eexists. }
      set_solver.
  - repeat split; done.
Qed.

End settings_store.

Section settings_store_example.
Import SettingsStore.

Lemma updateModelConfig_frame_witness :
  updateModelConfig "no-such-model" {["type" := "anthropic"]} defaultState = defaultState
  ∧ modelConfigs (updateModelConfig "gpt-4o" {["type" := "anthropic"]} defaultState)
      !! "gpt-4o"
    = Some (<["name" := "gpt-4o"]> (<["type" := "anthropic"]> ∅))
  ∧ modelConfigs (updateModelConfig "gpt-4o" {["type" := "anthropic"]} defaultState)
      !! "gpt-4o-mini"
    = Some (chatModel "gpt-4o-mini").
Proof.
  split; [|split].
  - apply (updateModelConfig_frame "no-such-model" {["type" := "anthropic"]} defaultState).
    reflexivity.
  - destruct (updateModelConfig_frame "gpt-4o" {["type" := "anthropic"]} defaultState)
      as (_ & Hsome & _).
    destruct (Hsome (chatModel "gpt-4o") eq_refl) as [-> _]. by vm_compute.
  - destruct (updateModelConfig_frame "gpt-4o" {["type" := "anthropic"]} defaultState)
      as (_ & _ & Hother & _).
    rewrite Hother by done. reflexivity.
Defined.

End settings_store_example.

(** * Part IV: further properties of the sources *)

(** ** The position map on arbitrary input *)

Section layout_positions.
Variable nodes : gmap string TreeNode.




End layout_positions.


(** ** The position map on the heap *)

Section positions_on_heap.
Import TreeViewJs.



(** X22.  The state-passing embedding against the invocation on the heap,
    for every heap and root id: the invocation throws exactly when a
    reference reachable from the root id is found on the prototype;
    otherwise it returns, and what it returns is the position map of the
    state-passing [calculateLayout]. *)
Theorem calculateLayout_js_refines (h : Heap) (rootId : string) :
  (throws (calculateLayout_js rootId h)
   ↔ ∃ bad, reachable (tree_nodes h) rootId bad ∧ names_inherited (tree_nodes h) bad)
  ∧ (own_keys_only (tree_nodes h) rootId →
     ∃ pos, returns (calculateLayout_js rootId h) pos)
  ∧ (∀ pos, returns (calculateLayout_js rootId h) pos →
            calculateLayout rootId (tree_nodes h) = Some pos).
Proof.
  pose proof (calculateLayout_js_spec (tree_nodes h) rootId h eq_refl) as Hspec.
  split; [by apply calculateLayout_js_throws|split].
  - intros Hown. destruct (calculateLayout_js rootId h) as [pos h'|h'|]; [| |done].
    + exists pos. by exists h'.
    + destruct Hspec as (_ & bad & Hr & Hbad). by destruct (Hown bad Hr).
  - intros pos [h' Hrun]. rewrite Hrun in Hspec. apply Hspec.
Qed.

Lemma calculateLayout_js_refines_witness :
  ∃ pos, returns (calculateLayout_js "r" usedHeap) pos
         ∧ calculateLayout "r" cyclicTree = Some pos.
Proof.
  destruct (calculateLayout_js_refines usedHeap "r") as (_ & Hreturns & Hmodel).
  destruct (Hreturns cyclicTree_own_keys_only) as [pos Hrun].
  exists pos. split; [exact Hrun|]. apply Hmodel. exact Hrun.
Defined.

(** X23.  The layout depends on the shape of the tree only: on two heaps
    whose node mappings have the same ids with the same children arrays,
    whatever the texts, bookmarks and parent links, the invocations return
    the same position map, or both throw. *)
Theorem calculateLayout_depends_on_shape_only (h h2 : Heap) (rootId : string) :
  same_shape (tree_nodes h) (tree_nodes h2) →
  (∀ pos, returns (calculateLayout_js rootId h) pos
          ↔ returns (calculateLayout_js rootId h2) pos)
  ∧ (throws (calculateLayout_js rootId h) ↔ throws (calculateLayout_js rootId h2)).
Proof.
  intros Hshape.
  assert (∀ h h2, same_shape (tree_nodes h) (tree_nodes h2) →
            throws (calculateLayout_js rootId h) → throws (calculateLayout_js rootId h2))
    as Hthrows.
  { intros g g2 Hs Hg. apply (calculateLayout_js_throws _ rootId g2 eq_refl).
    apply (same_shape_inherited _ _ Hs).
    by apply (calculateLayout_js_throws _ rootId g eq_refl). }
  assert (∀ h h2 pos, same_shape (tree_nodes h) (tree_nodes h2) →
            returns (calculateLayout_js rootId h) pos →
            returns (calculateLayout_js rootId h2) pos) as Hreturns.
  { intros g g2 pos Hs [g' Hg].
    pose proof (calculateLayout_js_spec _ rootId g eq_refl) as Hspec.
    rewrite Hg in Hspec. destruct Hspec as [_ Hmodel].
    rewrite (calculateLayout_same_shape _ _ Hs) in Hmodel.
    pose proof (calculateLayout_js_spec _ rootId g2 eq_refl) as Hspec2.
    destruct (calculateLayout_js rootId g2) as [pos2 g2'|g2'|] eqn:Hg2; [| |done].
    - destruct Hspec2 as [_ Hmodel2]. exists g2'. congruence.
    - assert (throws (calculateLayout_js rootId g)) as [? Hthrown].
      { apply (Hthrows g2 g); [by apply same_shape_sym|]. rewrite Hg2. by eexists. }
      congruence. }
  pose proof (same_shape_sym _ _ Hshape) as Hshape'.
  split; [intros pos|]; split; eauto.
Qed.

Lemma calculateLayout_depends_on_shape_only_witness :
  ∃ pos, returns (calculateLayout_js "r" (mkHeap (annotate <$> cyclicTree) initialState)) pos
         ∧ returns (calculateLayout_js "r" usedHeap) pos.
Proof.
  destruct (calculateLayout_depends_on_shape_only
              (mkHeap (annotate <$> cyclicTree) initialState) usedHeap "r")
    as [Hreturns _].
  { intros nodeId. simpl. rewrite lookup_fmap. by destruct (cyclicTree !! nodeId). }
  assert (∃ pos, returns (calculateLayout_js "r" usedHeap) pos) as [pos Hrun].
  { eexists. eexists. vm_compute. reflexivity. }
  exists pos. split; [|exact Hrun]. apply Hreturns. exact Hrun.
Defined.

End positions_on_heap.




(** ** No two nodes of an acyclic tree overlap *)

Section placed_apart.
Implicit Types (pos : gmap string (Z * Z)) (t k : rtree) (ks : list rtree).

(** Every id of a placed tree lies on the row of the root or below. *)
Lemma placed_rows_both pos :
  (∀ t x r y, placed pos t x r y →
     ∀ a xa ya, a ∈ ids t → pos !! a = Some (xa, ya) → y ≤ ya)
  ∧ (∀ ks cur r y, placed_row pos ks cur r y →
       ∀ a xa ya, a ∈ flat_map ids ks → pos !! a = Some (xa, ya) → y ≤ ya).
Proof.
  apply placed_mutind.
  - intros n ks x r y Hn _ _ IH a xa ya Ha Hpa. simpl in Ha.
    apply elem_of_cons in Ha as [->|Ha].
    + rewrite Hn in Hpa. injection Hpa as <- <-. lia.
    + specialize (IH a xa ya Ha Hpa). unfold verticalSpacing in IH. lia.
  - intros cur r y _ a xa ya Ha. by apply elem_of_nil in Ha.
  - intros k ks cur cx mid r y _ _ IHk _ IHks a xa ya Ha Hpa. simpl in Ha.
    apply elem_of_app in Ha as [Ha|Ha]; [by eapply IHk | by eapply IHks].
Qed.

(** Any two different ids of a placed tree are a full spacing apart. *)
Lemma placed_apart_both pos :
  (∀ t x r y, placed pos t x r y →
     ∀ a b p q, a ∈ ids t → b ∈ ids t → a ≠ b →
       pos !! a = Some p → pos !! b = Some q → apart p q)
  ∧ (∀ ks cur r y, placed_row pos ks cur r y →
       ∀ a b p q, a ∈ flat_map ids ks → b ∈ flat_map ids ks → a ≠ b →
         pos !! a = Some p → pos !! b = Some q → apart p q).
Proof.
  apply placed_mutind.
  - intros n ks x r y Hn _ Hrow IH a b [xa ya] [xb yb] Ha Hb Hab Hpa Hpb.
    simpl in Ha, Hb.
    apply elem_of_cons in Ha as [->|Ha]; apply elem_of_cons in Hb as [->|Hb].
    + done.
    + rewrite Hn in Hpa. injection Hpa as <- <-.
      pose proof (proj2 (placed_rows_both pos) _ _ _ _ Hrow b xb yb Hb Hpb).
      unfold apart. simpl. lia.
    + rewrite Hn in Hpb. injection Hpb as <- <-.
      pose proof (proj2 (placed_rows_both pos) _ _ _ _ Hrow a xa ya Ha Hpa).
      unfold apart. simpl. lia.
    + exact (IH a b _ _ Ha Hb Hab Hpa Hpb).
  - intros cur r y _ a b p q Ha. by apply elem_of_nil in Ha.
  - intros k ks cur cx mid r y _ Hk IHk Hks IHks a b [xa ya] [xb yb] Ha Hb Hab Hpa Hpb.
    simpl in Ha, Hb.
    apply elem_of_app in Ha as [Ha|Ha]; apply elem_of_app in Hb as [Hb|Hb].
    + exact (IHk a b _ _ Ha Hb Hab Hpa Hpb).
    + destruct (placed_bounds _ _ _ _ _ Hk a Ha) as (xa' & ya' & Hpa' & _ & Hra).
      destruct (placed_row_bounds _ _ _ _ _ Hks) as [_ Hrow].
      destruct (Hrow b Hb) as (xb' & yb' & Hpb' & Hlb & _).
      rewrite Hpa in Hpa'. rewrite Hpb in Hpb'.
      injection Hpa' as <- <-. injection Hpb' as <- <-.
      unfold apart. simpl. lia.
    + destruct (placed_bounds _ _ _ _ _ Hk b Hb) as (xb' & yb' & Hpb' & _ & Hrb).
      destruct (placed_row_bounds _ _ _ _ _ Hks) as [_ Hrow].
      destruct (Hrow a Ha) as (xa' & ya' & Hpa' & Hla & _).
      rewrite Hpa in Hpa'. rewrite Hpb in Hpb'.
      injection Hpa' as <- <-. injection Hpb' as <- <-.
      unfold apart. simpl. lia.
    + exact (IHks a b _ _ Ha Hb Hab Hpa Hpb).
Qed.

End placed_apart.

(** X4.  On an acyclic tree any two different nodes reachable from the root
    are placed a full spacing apart: at least [horizontalSpacing] (250)
    horizontally or at least [verticalSpacing] (120) vertically.  Both
    spacings exceed the node box ([nodeWidth] 200, [nodeHeight] 80), so no
    two boxes overlap. *)
Theorem layout_nodes_do_not_overlap (nodes : gmap string TreeNode) (rootId : string) :
  acyclic_tree nodes rootId →
  nodeWidth < horizontalSpacing ∧ nodeHeight < verticalSpacing ∧
  ∃ pos, calculateLayout rootId nodes = Some pos ∧
    ∀ a b p q, reachable nodes rootId a → reachable nodes rootId b → a ≠ b →
      pos !! a = Some p → pos !! b = Some q → apart p q.
Proof.
  intros (t & Hu & Hnd). split; [done|]. split; [done|].
  destruct (calculateLayout_placed nodes rootId t Hu Hnd) as (pos & r & Hrun & Hp).
  exists pos. split; [done|]. intros a b p q Ha Hb Hab Hpa Hpb.
  eapply (proj1 (placed_apart_both pos)); [exact Hp| | |exact Hab|exact Hpa|exact Hpb].
  - by eapply unfolds_reachable_ids.
  - by eapply unfolds_reachable_ids.
Qed.

Lemma layout_nodes_do_not_overlap_witness :
  acyclic_tree sampleTree "r"
  ∧ ∃ pos, calculateLayout "r" sampleTree = Some pos ∧
      ∀ p q, pos !! "c" = Some p → pos !! "b" = Some q → apart p q.
Proof.
  split; [exact sampleTree_acyclic|].
  destruct (layout_nodes_do_not_overlap sampleTree "r" sampleTree_acyclic)
    as (_ & _ & pos & Hrun & Hapart).
  exists pos. split; [exact Hrun|]. intros p q. apply Hapart.
  - apply rtc_l with "a"; [|apply rtc_once]; eexists; (split; [reflexivity|]);
      simpl; set_solver.
  - apply rtc_once. eexists. split; [reflexivity|]. simpl. set_solver.
  - done.
Defined.

(** ** Widths from a fresh visited set *)

Lemma leaves_leaf_ids (t : rtree) : leaves t = Z.of_nat (length (leaf_ids t)).
Proof.
  induction t as [n ks IH] using rtree_forall_ind.
  destruct ks as [|k ks]; [done|].
  change (leaves (RNode n (k :: ks)))
    with (fold_right (λ k acc, leaves k + acc) 0 (k :: ks)).
  change (leaf_ids (RNode n (k :: ks))) with (flat_map leaf_ids (k :: ks)).
  induction IH as [|k' ks' Hk' _ IHks]; [done|].
  simpl. rewrite length_app, Nat2Z.inj_add, Hk', IHks. done.
Qed.

(** The leaves of an unfolding are its ids whose node has no children. *)
Lemma elem_of_leaf_ids nodes (t : rtree) : ∀ n a,
  unfolds nodes n t →
  a ∈ leaf_ids t ↔ a ∈ ids t ∧ ∃ node, nodes !! a = Some node ∧ children node = [].
Proof.
  induction t as [n' ks IH] using rtree_forall_ind. intros n a Hu.
  inversion Hu as [n0 node ks0 Hnode HF]; subst.
  destruct ks as [|k ks].
  - apply Forall2_nil_inv_r in HF. simpl. split.
    + intros ->%list_elem_of_singleton. split; [by left | by eauto].
    + intros [->%list_elem_of_singleton _]. by left.
  - change (leaf_ids (RNode n' (k :: ks))) with (flat_map leaf_ids (k :: ks)).
    rewrite list_elem_of_In, in_flat_map. setoid_rewrite <- list_elem_of_In.
    rewrite Forall_forall in IH. split.
    + intros (k' & Hk' & Ha).
      apply list_elem_of_lookup_1 in Hk' as Hi. destruct Hi as [i Hi].
      destruct (Forall2_lookup_r _ _ _ _ _ HF Hi) as (c & _ & Hck).
      apply (IH k' Hk' c a Hck) in Ha as [Ha Hleaf]. split; [|done].
      change (a ∈ n' :: flat_map ids (k :: ks)). apply elem_of_cons. right.
      apply elem_of_flat_map_ids. by exists k'.
    + intros [Ha (node' & Hnode' & Hleaf)].
      change (a ∈ n' :: flat_map ids (k :: ks)) in Ha.
      apply elem_of_cons in Ha as [->|Ha].
      { rewrite Hnode in Hnode'. injection Hnode' as <-.
        rewrite Hleaf in HF. by apply Forall2_nil_inv_l in HF. }
      apply elem_of_flat_map_ids in Ha as (k' & Hk' & Ha). exists k'. split; [done|].
      apply list_elem_of_lookup_1 in Hk' as Hi. destruct Hi as [i Hi].
      destruct (Forall2_lookup_r _ _ _ _ _ HF Hi) as (c & _ & Hck).
      apply (IH k' Hk' c a Hck). split; [done | by eauto].
Qed.

(** X5.  Started on an acyclic subtree none of whose ids is in the visited
    set, [calculateSubtreeWidth] returns the number of leaves of the
    subtree and adds exactly the ids of the subtree to the visited set. *)
Theorem calculateSubtreeWidth_counts_leaves (nodes : gmap string TreeNode)
    (nodeId : string) (t : rtree) (vis : gset string) :
  unfolds nodes nodeId t → NoDup (ids t) → (∀ a, a ∈ ids t → a ∉ vis) →
  calculateSubtreeWidth nodes nodeId vis
  = Some (Z.of_nat (length (leaf_ids t)), vis ∪ list_to_set (ids t)).
Proof.
  intros Hu Hnd Hfresh. rewrite <- leaves_leaf_ids.
  by apply calculateSubtreeWidth_leaves.
Qed.

Lemma calculateSubtreeWidth_counts_leaves_witness :
  calculateSubtreeWidth sampleTree "a" ∅ = Some (2, list_to_set ["a"; "c"; "d"]).
Proof.
  rewrite (calculateSubtreeWidth_counts_leaves sampleTree "a"
             (RNode "a" [RNode "c" []; RNode "d" []]) ∅).
  - vm_compute. reflexivity.
  - check_unfolds.
  - apply (bool_decide_unpack _). vm_compute. exact I.
  - intros a _. set_solver.
Defined.

(** ** The editable node: trimming and saving *)

Section trim_facts.
Import EditableNode TrimSpec.

Lemma trimEnd_all_ws (w : string) : all_ws w = true → trimEnd w = "".
Proof.
  induction w as [|c w IH]; simpl; [done|].
  intros [Hc Hw]%andb_true_iff. by rewrite (IH Hw), Hc.
Qed.

Lemma trimEnd_app_ws (s w : string) : all_ws w = true → trimEnd (s +:+ w) = trimEnd s.
Proof.
  intros Hw. induction s as [|c s IH]; simpl; [by apply trimEnd_all_ws|].
  by rewrite IH.
Qed.

Lemma trimStart_app_ws (w s : string) : all_ws w = true → trimStart (w +:+ s) = trimStart s.
Proof.
  induction w as [|c w IH]; simpl; [done|].
  intros [Hc Hw]%andb_true_iff. rewrite Hc. by apply IH.
Qed.

Lemma trimEnd_ws_app (w t : string) :
  all_ws w = true →
  trimEnd (w +:+ t) = if decide (trimEnd t = "") then "" else w +:+ trimEnd t.
Proof.
  induction w as [|c w IH].
  - intros _. change ("" +:+ t) with t. change ("" +:+ trimEnd t) with (trimEnd t).
    by destruct (decide (trimEnd t = "")) as [->|].
  - intros [Hc Hw]%andb_true_iff.
    change (String c w +:+ t) with (String c (w +:+ t)).
    change (String c w +:+ trimEnd t) with (String c (w +:+ trimEnd t)).
    simpl. rewrite (IH Hw).
    destruct (decide (trimEnd t = "")) as [He|Hne]; [by rewrite Hc|].
    destruct (w +:+ trimEnd t) as [|d u] eqn:Happ; [|done].
    destruct w; [by change ("" +:+ trimEnd t) with (trimEnd t) in Happ | done].
Qed.

Lemma trimEnd_idempotent (s : string) : trimEnd (trimEnd s) = trimEnd s.
Proof.
  induction s as [|c s IH]; simpl; [done|].
  destruct (trimEnd s) as [|d u] eqn:Hs.
  - destruct (isWhiteSpace c) eqn:Hc; simpl; [done | by rewrite Hc].
  - change (trimEnd (String c (String d u))) with
      (match trimEnd (String d u) with
       | EmptyString => if isWhiteSpace c then EmptyString else String c EmptyString
       | t => String c t
       end).
    by rewrite IH.
Qed.

Lemma trimStart_idempotent (s : string) : trimStart (trimStart s) = trimStart s.
Proof.
  induction s as [|c s IH]; simpl; [done|].
  destruct (isWhiteSpace c) eqn:Hc; [done|]. simpl. by rewrite Hc.
Qed.

Lemma trimEnd_trimStart_fixed (t : string) :
  trimEnd t = t → trimEnd (trimStart t) = trimStart t.
Proof.
  induction t as [|c t IH]; [done|]. intros Hfix.
  change (trimStart (String c t)) with (if isWhiteSpace c then trimStart t else String c t).
  destruct (isWhiteSpace c) eqn:Hc; [|done].
  apply IH. simpl in Hfix. rewrite Hc in Hfix.
  destruct (trimEnd t) as [|d u]; [done | by injection Hfix].
Qed.

(** [trim] is idempotent. *)
Lemma trim_idempotent (s : string) : trim (trim s) = trim s.
Proof.
  unfold trim. rewrite (trimEnd_trimStart_fixed (trimEnd s)) by apply trimEnd_idempotent.
  apply trimStart_idempotent.
Qed.

(** White space around a text does not survive [trim]. *)
Lemma trim_padding (w1 t w2 : string) :
  all_ws w1 = true → all_ws w2 = true → trim (w1 +:+ t +:+ w2) = trim t.
Proof.
  intros H1 H2. unfold trim.
  rewrite (trimEnd_ws_app w1 (t +:+ w2) H1), (trimEnd_app_ws t w2 H2).
  destruct (decide (trimEnd t = "")) as [->|Hne]; [done|].
  by apply trimStart_app_ws.
Qed.

End trim_facts.

Section editable_node_events.
Import EditableNode TruncateSpec TrimSpec EditableNodeEvents.

(** X6.  When the stored text carries no surrounding white space, an edit
    text that differs from it only by white space added in front or behind
    is not reported: [handleSave] invokes no callback. *)
Theorem handleSave_ignores_padding (id : string) (data : NodeData) (editing : bool)
    (w1 w2 : string) :
  all_ws w1 = true → all_ws w2 = true → trim (text data) = text data →
  fst (handleSave id data (mkEditorState editing (w1 +:+ text data +:+ w2))) = [].
Proof.
  intros H1 H2 Htrimmed. unfold handleSave. simpl.
  rewrite decide_False; [done|]. intros Hne. apply Hne.
  by rewrite trim_padding.
Qed.

Lemma handleSave_ignores_padding_witness :
  fst (handleSave "n1" (mkNodeData "Once upon" None)
         (mkEditorState true ("  " +:+ "Once upon" +:+ " "))) = [].
Proof.
  apply (handleSave_ignores_padding "n1" (mkNodeData "Once upon" None) true "  " " ");
    reflexivity.
Defined.

(** X7.  When the stored text itself begins or ends with white space,
    every save reports an edit, whatever the edit text: the trimmed edit
    text can never equal the stored text. *)
Theorem handleSave_untrimmed_text_always_reported (id : string) (data : NodeData)
    (st : EditorState) :
  trim (text data) ≠ text data →
  fst (handleSave id data st) = [onEdit id (editText st)].
Proof.
  intros Hun. unfold handleSave. simpl. rewrite decide_True; [done|].
  intros Heq. apply Hun. rewrite <- Heq. apply trim_idempotent.
Qed.

Lemma handleSave_untrimmed_text_always_reported_witness :
  fst (handleSave "n1" (mkNodeData " and then" None) (mkEditorState true "and then"))
  = [onEdit "n1" "and then"].
Proof.
  apply (handleSave_untrimmed_text_always_reported "n1" (mkNodeData " and then" None)
           (mkEditorState true "and then")).
  by vm_compute.
Defined.

(** X8.  A double click while the node is loading changes nothing.
    Otherwise it opens the editor on the stored text, as Escape resets it to
    the stored text; a save right after either, with nothing typed, reports
    an edit exactly when the stored text begins or ends with white space.
    Escape itself invokes nothing. *)
Theorem save_after_opening_or_escape (id : string) (props : NodeProps)
    (shift : bool) (st : EditorState) :
  (truthy (isLoading props) = true → handleDoubleClick props st = st)
  ∧ (truthy (isLoading props) = false →
     handleDoubleClick props st = mkEditorState true (text (data props))
     ∧ (fst (handleSave id (data props) (handleDoubleClick props st)) = []
        ↔ trim (text (data props)) = text (data props)))
  ∧ handleKeyDown id props (mkKeyboardEvent "Escape" shift) st
    = ([], mkEditorState false (text (data props)))
  ∧ (fst (handleSave id (data props)
            (snd (handleKeyDown id props (mkKeyboardEvent "Escape" shift) st))) = []
     ↔ trim (text (data props)) = text (data props)).
Proof.
  unfold handleDoubleClick, handleKeyDown, handleSave. simpl.
  split; [by intros ->|]. split; [intros ->; split; [done|]; simpl|split; [done|]; simpl].
  - destruct (decide (trim (text (data props)) ≠ text (data props))) as [Hne|Heq].
    + split; [done | by intros ?].
    + apply dec_stable in Heq. by split.
  - destruct (decide (trim (text (data props)) ≠ text (data props))) as [Hne|Heq].
    + split; [done | by intros ?].
    + apply dec_stable in Heq. by split.
Qed.

Lemma save_after_opening_or_escape_witness :
  fst (handleSave "n1" (mkNodeData "Once " None)
         (handleDoubleClick (mkNodeProps (mkNodeData "Once " None) None)
            (mkEditorState false ""))) ≠ [].
Proof.
  destruct (save_after_opening_or_escape "n1"
              (mkNodeProps (mkNodeData "Once " None) None) false (mkEditorState false ""))
    as (_ & Hopen & _).
  destruct (Hopen eq_refl) as [_ Hiff]. intros Hnone. apply Hiff in Hnone.
  by vm_compute in Hnone.
Defined.

(** X9.  Of all key presses only Enter without Shift has effects: it
    schedules one [onGenerate] for the node, 100 ms later, and it reports
    an edit under the very condition of [handleSave].  No other key
    schedules a generation or reports an edit, and Shift+Enter and the keys
    other than Enter and Escape leave the component state as it is. *)
Theorem handleKeyDown_effects (id : string) (props : NodeProps) (e : KeyboardEvent)
    (st : EditorState) :
  (∀ i d, setTimeout_onGenerate i d ∈ fst (handleKeyDown id props e st)
          ↔ key e = "Enter" ∧ shiftKey e = false ∧ i = id ∧ d = 100)
  ∧ (∀ i t, invoke (onEdit i t) ∈ fst (handleKeyDown id props e st)
            ↔ key e = "Enter" ∧ shiftKey e = false ∧ i = id ∧ t = editText st
              ∧ trim (editText st) ≠ text (data props))
  ∧ (preventDefault ∈ fst (handleKeyDown id props e st)
     ↔ key e = "Enter" ∧ shiftKey e = false)
  ∧ (key e = "Enter" → shiftKey e = false →
     snd (handleKeyDown id props e st) = snd (handleSave id (data props) st))
  ∧ ((key e = "Enter" ∧ shiftKey e = true) ∨ (key e ≠ "Enter" ∧ key e ≠ "Escape") →
     handleKeyDown id props e st = ([], st)).
Proof.
  unfold handleKeyDown, handleSave. simpl.
  destruct (decide (key e = "Enter")) as [HE|HnE];
    [destruct (shiftKey e) eqn:Hs;
       [|destruct (decide (trim (editText st) ≠ text (data props))) as [Hne|Heq]]
    |destruct (decide (key e = "Escape")) as [HEsc|HnEsc]];
    simpl; repeat split; intros;
    rewrite ?elem_of_cons, ?elem_of_nil in *; naive_solver.
Qed.

Lemma handleKeyDown_effects_witness :
  fst (handleKeyDown "n1" (mkNodeProps (mkNodeData "Once" None) None)
         (mkKeyboardEvent "Enter" false) (mkEditorState true "Once more"))
  = [preventDefault; invoke (onEdit "n1" "Once more"); setTimeout_onGenerate "n1" 100]
  ∧ setTimeout_onGenerate "n1" 100
    ∈ fst (handleKeyDown "n1" (mkNodeProps (mkNodeData "Once" None) None)
             (mkKeyboardEvent "Enter" false) (mkEditorState true "Once more")).
Proof.
  split; [reflexivity|].
  apply (handleKeyDown_effects "n1" (mkNodeProps (mkNodeData "Once" None) None)
           (mkKeyboardEvent "Enter" false) (mkEditorState true "Once more")).
  done.
Defined.

(** X10.  The button that opens the full text is rendered only next to a
    text that was cut: whenever it shows, the body is the stored text cut at
    the limit and followed by the three-character suffix; and a non-empty
    stored text rendered without the button is rendered in full. *)
Theorem detail_button_iff_text_cut (props : NodeProps) (st : EditorState) :
  (showsDetailButton props st = true →
   renderBody props st
   = Text (substring 0 (maxLength (data props)) (text (data props)) +:+ "..."))
  ∧ (∀ s, renderBody props st = Text s → text (data props) ≠ "" →
       showsDetailButton props st = false → s = text (data props)).
Proof.
  unfold showsDetailButton, renderBody, truncateText.
  destruct (isEditing st), (truthy (isLoading props)); simpl; try (split; done).
  destruct (decide (text (data props) = "")) as [Hempty|Hne].
  { rewrite bool_decide_eq_true_2 by done. simpl. split; [done|]. by intros. }
  rewrite bool_decide_eq_false_2 by done. simpl.
  destruct (decide (Z.of_nat (String.length (text (data props))) ≤ maxLength (data props)))
    as [Hle|Hgt].
  - rewrite bool_decide_eq_false_2 by lia. split; [done|]. by intros s [= <-].
  - rewrite bool_decide_eq_true_2 by lia. by split.
Qed.

Lemma detail_button_iff_text_cut_witness :
  renderBody (mkNodeProps (mkNodeData "branching" (Some 4)) None) (mkEditorState false "")
  = Text "bran...".
Proof.
  rewrite (proj1 (detail_button_iff_text_cut
                    (mkNodeProps (mkNodeData "branching" (Some 4)) None)
                    (mkEditorState false ""))); reflexivity.
Defined.

Lemma substring_clamped (n : Z) (s : string) :
  substring 0 n s
  = String.substring 0 (Z.to_nat (Z.min (Z.max n 0) (Z.of_nat (String.length s)))) s.
Proof.
  unfold substring.
  replace (Z.min (Z.max 0 0) (Z.of_nat (String.length s))) with 0 by lia.
  f_equal; lia.
Qed.

Lemma substring_app_prefix (p q : string) :
  String.substring 0 (String.length p) (p +:+ q) = p.
Proof.
  induction p as [|c p IH].
  - change ("" +:+ q) with q. by destruct q.
  - change (String c p +:+ q) with (String c (p +:+ q)). simpl. by rewrite IH.
Qed.

(** X11.  Truncating is idempotent: a text that has been truncated is left
    as it is by a second truncation, for every limit. *)
Theorem truncateText_idempotent (data : NodeData) (t : string) :
  truncateText data (truncateText data t) = truncateText data t.
Proof.
  destruct (decide (Z.of_nat (String.length t) ≤ maxLength data)) as [Hle|Hgt].
  { assert (truncateText data t = t) as ->; unfold truncateText; by rewrite decide_True. }
  set (m := Z.to_nat (Z.max (maxLength data) 0)).
  set (p := String.substring 0 m t).
  assert (String.length p = m) as Hp by (apply length_substring_prefix; lia).
  assert (truncateText data t = p +:+ "...") as ->.
  { unfold truncateText. rewrite decide_False by done. rewrite substring_clamped.
    by replace (Z.min (Z.max (maxLength data) 0) (Z.of_nat (String.length t)))
      with (Z.max (maxLength data) 0) by lia. }
  unfold truncateText.
  rewrite decide_False by (rewrite length_append, Hp; simpl; lia).
  rewrite substring_clamped, length_append, Hp. simpl.
  replace (Z.to_nat (Z.min (Z.max (maxLength data) 0) (Z.of_nat (m + 3)))) with m by lia.
  rewrite <- Hp at 1. by rewrite substring_app_prefix.
Qed.

End editable_node_events.

(** ** The flow nodes and edges *)

Lemma substring_full (s : string) : String.substring 0 (String.length s) s = s.
Proof. induction s as [|c s IH]; simpl; [done | by rewrite IH]. Qed.

Lemma append_inj_same_length (s1 s2 u1 u2 : string) :
  String.length s1 = String.length s2 → s1 +:+ u1 = s2 +:+ u2 → s1 = s2 ∧ u1 = u2.
Proof.
  revert s2. induction s1 as [|c s1 IH]; intros [|d s2]; try done.
  intros [= Hlen].
  change (String c s1 +:+ u1) with (String c (s1 +:+ u1)).
  change (String d s2 +:+ u2) with (String d (s2 +:+ u2)).
  intros [= -> Happ]. by destruct (IH s2 Hlen Happ) as [-> ->].
Qed.

Section tree_view_flow.
Import TreeViewFlow.

(** X12.  The label of a flow node is never empty and never longer than 50
    code units: it is the placeholder for an empty text, the text itself
    when that has at most 50 code units, and its first 50 otherwise. *)
Theorem flowNode_label (tree : Tree) (positions : gmap string (Z * Z)) (node : TreeNode) :
  fn_label (flowNode tree positions node) ≠ ""
  ∧ (String.length (fn_label (flowNode tree positions node)) ≤ 50)%nat
  ∧ (text node = "" → fn_label (flowNode tree positions node) = "(empty)")
  ∧ (text node ≠ "" → (String.length (text node) ≤ 50)%nat →
     fn_label (flowNode tree positions node) = text node)
  ∧ ((50 < String.length (text node))%nat →
     fn_label (flowNode tree positions node) = String.substring 0 50 (text node)).
Proof.
  unfold flowNode. simpl. rewrite substring_clamped.
  set (m := Z.to_nat (Z.min (Z.max 50 0) (Z.of_nat (String.length (text node))))).
  assert (String.length (String.substring 0 m (text node)) = m) as Hlen
    by (apply length_substring_prefix; lia).
  destruct (decide (String.substring 0 m (text node) = "")) as [Hempty|Hne].
  - rewrite Hempty in Hlen. simpl in Hlen.
    assert (text node = "") as Htext.
    { destruct (text node); [done | simpl in *; lia]. }
    repeat split; try done; simpl; lia.
  - repeat split; try done.
    + lia.
    + intros Htext. rewrite Htext in Hne. by destruct m.
    + intros _ Hshort. replace m with (String.length (text node)) by lia.
      apply substring_full.
    + intros Hlong. by replace m with 50%nat by lia.
Qed.



(** X14.  Edge ids tell edges apart whenever the ids of the source nodes
    have the same length (as generated ids do): two edges with the same id
    then have the same source and the same target. *)
Theorem flowEdges_id_injective (node1 node2 : TreeNode) (e1 e2 : FlowEdge) :
  String.length (id node1) = String.length (id node2) →
  e1 ∈ flowEdges node1 → e2 ∈ flowEdges node2 →
  fe_id e1 = fe_id e2 → e1 = e2.
Proof.
  intros Hlen (c1 & -> & _)%list_elem_of_fmap (c2 & -> & _)%list_elem_of_fmap. simpl.
  intros Hid. apply append_inj_same_length in Hid as [Hsrc Hrest]; [|done].
  change ("-" +:+ c1) with (String "-" c1) in Hrest.
  change ("-" +:+ c2) with (String "-" c2) in Hrest.
  injection Hrest as ->. by rewrite Hsrc.
Qed.

Lemma flowEdges_id_injective_witness :
  mkFlowEdge "n1-n2" "n1" "n2" ∈ flowEdges (mkTreeNode "n1" "" None ["n2"; "n3"] false)
  ∧ mkFlowEdge "n1-n2" "n1" "n2" = mkFlowEdge "n1-n2" "n1" "n2".
Proof.
  assert (mkFlowEdge "n1-n2" "n1" "n2"
          ∈ flowEdges (mkTreeNode "n1" "" None ["n2"; "n3"] false)) as Hin
    by (vm_compute; left).
  split; [exact Hin|].
  by apply (flowEdges_id_injective (mkTreeNode "n1" "" None ["n2"; "n3"] false)
              (mkTreeNode "n1" "" None ["n2"; "n3"] false)).
Defined.

Lemma flowNode_label_witness :
  fn_label (flowNode (mkTree "r" sampleTree "r") ∅
              (mkTreeNode "r" "Once upon a time" None ["a"; "b"] false))
  = "Once upon a time".
Proof.
  destruct (flowNode_label (mkTree "r" sampleTree "r") ∅
              (mkTreeNode "r" "Once upon a time" None ["a"; "b"] false))
    as (_ & _ & _ & Hshort & _).
  apply Hshort; [done | simpl; lia].
Defined.

End tree_view_flow.

(** ** The settings store: model configurations *)

Section model_configs.
Import SettingsStore.
Context {Preferences Workspace GenerationSettings Value : Type}.
Implicit Types (config updates : gmap string Value).
Implicit Types (state : @SettingsState Preferences Workspace GenerationSettings Value).

Lemma state_eta state :
  mkSettingsState (preferences state) (workspace state) (generationSettings state)
    (modelConfigs state) = state.
Proof. by destruct state. Qed.

(** X15.  Adding a configuration under a name that is not in use and then
    removing that name gives back the state as it was; in between, the
    configuration is what a lookup of the name finds. *)
Theorem addModelConfig_then_remove (name : string) config state :
  modelConfigs state !! name = None →
  modelConfigs (addModelConfig name config state) !! name = Some config
  ∧ removeModelConfig name (addModelConfig name config state) = state.
Proof.
  intros Hfresh. unfold addModelConfig, removeModelConfig. simpl.
  split; [apply lookup_insert_eq|].
  rewrite delete_insert_id by done. apply state_eta.
Qed.

(** X16.  Updating a configuration right after adding it is the same as
    adding the merged configuration in the first place. *)
Theorem updateModelConfig_after_add (name : string) config updates state :
  updateModelConfig name updates (addModelConfig name config state)
  = addModelConfig name (Object_assign config updates) state.
Proof.
  unfold updateModelConfig, addModelConfig. simpl.
  by rewrite lookup_insert_eq, insert_insert_eq.
Qed.

(** [updateModelConfig] changes the entry of the name, if there is one,
    and nothing else. *)
Lemma updateModelConfig_alter (name : string) updates state :
  updateModelConfig name updates state
  = mkSettingsState (preferences state) (workspace state) (generationSettings state)
      (alter (λ config, Object_assign config updates) name (modelConfigs state)).
Proof.
  unfold updateModelConfig.
  destruct (modelConfigs state !! name) as [config|] eqn:Hname.
  - f_equal. apply map_eq. intros k. rewrite lookup_alter, lookup_insert.
    case_decide; [by rewrite Hname | done].
  - rewrite alter_id' by done. symmetry. apply state_eta.
Qed.

(** X17.  Two updates of the same configuration in a row are one update
    with the updates merged, the later one winning; an update applied twice
    is the update applied once; updates of different names commute. *)
Theorem updateModelConfig_compose (name : string) (u1 u2 : gmap string Value) state :
  updateModelConfig name u2 (updateModelConfig name u1 state)
  = updateModelConfig name (Object_assign u1 u2) state
  ∧ updateModelConfig name u1 (updateModelConfig name u1 state)
    = updateModelConfig name u1 state
  ∧ (∀ other, other ≠ name →
       updateModelConfig name u1 (updateModelConfig other u2 state)
       = updateModelConfig other u2 (updateModelConfig name u1 state)).
Proof.
  rewrite !updateModelConfig_alter. simpl. split; [|split].
  - f_equal. apply map_eq. intros k. rewrite !lookup_alter.
    repeat case_decide; try done.
    destruct (modelConfigs state !! name); [|done]. simpl.
    unfold Object_assign. by rewrite (assoc_L (∪)).
  - f_equal. apply map_eq. intros k. rewrite !lookup_alter.
    repeat case_decide; try done.
    destruct (modelConfigs state !! name); [|done]. simpl.
    unfold Object_assign. by rewrite (assoc_L (∪)), (idemp_L (∪)).
  - intros other Hne. rewrite !updateModelConfig_alter. simpl. f_equal.
    apply map_eq. intros k. rewrite !lookup_alter.
    repeat case_decide; congruence.
Qed.

(** X18.  Removing a configuration makes a later update of that name a
    no-op, and an update followed by the removal leaves what the removal
    alone leaves: an update never brings a removed configuration back. *)
Theorem updateModelConfig_and_remove (name : string) updates state :
  updateModelConfig name updates (removeModelConfig name state)
  = removeModelConfig name state
  ∧ removeModelConfig name (updateModelConfig name updates state)
    = removeModelConfig name state.
Proof.
  unfold updateModelConfig, removeModelConfig. simpl.
  rewrite lookup_delete_eq. split; [done|].
  destruct (modelConfigs state !! name); simpl; [|done].
  by rewrite delete_insert_eq.
Qed.

End model_configs.

Section model_configs_example.
Import SettingsStore.

Lemma updateModelConfig_compose_witness :
  updateModelConfig "gpt-4o" {["type" := "anthropic"]}
    (updateModelConfig "gpt-4o-mini" {["type" := "local"]} defaultState)
  = updateModelConfig "gpt-4o-mini" {["type" := "local"]}
      (updateModelConfig "gpt-4o" {["type" := "anthropic"]} defaultState).
Proof.
  apply (updateModelConfig_compose "gpt-4o" {["type" := "anthropic"]}
           {["type" := "local"]} defaultState).
  done.
Defined.

Lemma addModelConfig_then_remove_witness :
  removeModelConfig "custom-model"
    (addModelConfig "custom-model" (chatModel "custom-model") defaultState)
  = defaultState.
Proof.
  apply (addModelConfig_then_remove "custom-model" (chatModel "custom-model") defaultState).
  reflexivity.
Defined.

End model_configs_example.

(** ** The settings store: preferences, workspace, generation settings *)

Section settings_actions.
Import SettingsStore SettingsActions MergeSpec.
Context {Value : Type}.
Implicit Types (state : @State Value).

(** X19.  Toggling the dark mode twice gives back the state as it was, and
    one toggle is the preferences update that names [darkMode] only, with
    the negated value. *)
Theorem toggleDarkMode_involution state :
  toggleDarkMode (toggleDarkMode state) = state
  ∧ toggleDarkMode state
    = updatePreferences (onlyDarkMode (negb (darkMode (preferences state)))) state.
Proof.
  destruct state as [[] w g m]. unfold toggleDarkMode, updatePreferences. simpl.
  by rewrite negb_involutive.
Qed.

(** X20.  The two pane toggles are involutions, they commute, and neither
    touches the modules of a pane or the other pane. *)
Theorem pane_toggles state :
  toggleSidePane (toggleSidePane state) = state
  ∧ toggleBottomPane (toggleBottomPane state) = state
  ∧ toggleSidePane (toggleBottomPane state) = toggleBottomPane (toggleSidePane state)
  ∧ modules (side_pane (workspace (toggleSidePane state)))
    = modules (side_pane (workspace state))
  ∧ bottom_pane (workspace (toggleSidePane state)) = bottom_pane (workspace state)
  ∧ modules (bottom_pane (workspace (toggleBottomPane state)))
    = modules (bottom_pane (workspace state))
  ∧ side_pane (workspace (toggleBottomPane state)) = side_pane (workspace state).
Proof.
  destruct state as [p [[] [] b a s] g m]. unfold toggleSidePane, toggleBottomPane. simpl.
  by rewrite !negb_involutive.
Qed.

(** X21.  Each of the three [Object.assign] updaters composes: two updates
    in a row are the single update with the later values winning.  A
    workspace update that carries a pane replaces the stored pane as a
    whole, its modules included. *)
Theorem updaters_compose state :
  (∀ u1 u2, updatePreferences u2 (updatePreferences u1 state)
            = updatePreferences (mergePreferences u1 u2) state)
  ∧ (∀ u1 u2, updateWorkspace u2 (updateWorkspace u1 state)
              = updateWorkspace (mergeWorkspace u1 u2) state)
  ∧ (∀ u1 u2 : gmap string Value,
       updateGenerationSettings u2 (updateGenerationSettings u1 state)
       = updateGenerationSettings (Object_assign u1 u2) state)
  ∧ (∀ u pane, side_pane_opt u = Some pane →
       side_pane (workspace (updateWorkspace u state)) = pane).
Proof.
  split; [|split; [|split]].
  - intros [] []. unfold updatePreferences, assignPreferences, mergePreferences. simpl.
    f_equal. f_equal; unfold assigned, merged;
      repeat match goal with |- context [match ?o with _ => _ end] => destruct o end;
      reflexivity.
  - intros [] []. unfold updateWorkspace, assignWorkspace, mergeWorkspace. simpl.
    f_equal. f_equal; unfold assigned, merged;
      repeat match goal with |- context [match ?o with _ => _ end] => destruct o end;
      reflexivity.
  - intros u1 u2. unfold updateGenerationSettings, Object_assign. simpl.
    by rewrite (assoc_L (∪)).
  - intros u pane Hpane. unfold updateWorkspace, assignWorkspace. simpl.
    by rewrite Hpane.
Qed.

End settings_actions.

Section settings_actions_example.
Import SettingsStore SettingsActions MergeSpec.

Lemma updaters_compose_witness :
  side_pane
    (workspace
       (updateWorkspace
          (mkPartialWorkspace (Some (mkPane false [])) None None None None)
          (mkSettingsState defaultPreferences defaultWorkspace
             (∅ : gmap string string) defaultModelConfigs)))
  = mkPane false [].
Proof.
  apply (updaters_compose
           (mkSettingsState defaultPreferences defaultWorkspace
              (∅ : gmap string string) defaultModelConfigs)).
  reflexivity.
Defined.

End settings_actions_example.
